(** * allmedia-chaincode: ledger records, identifier index and royalty distribution

    A shallow embedding of [chaincode.go]: the handlers of [SimpleChaincode]
    are Rocq functions that thread the chaincode stub explicitly and return
    the Go result pair as an [outcome].  The two libraries the handlers are
    written against are modelled separately:

    - the Fabric shim ([GetState], [PutState]) as a key-value ledger with an
      oracle telling which reads and writes fail;
    - [encoding/json] as the interface [Json]; the handlers and the general
      lemmas are stated for any implementation of it, and the module
      [CompactJson] gives one executable implementation on which the
      handlers are run on concrete ledgers. *)

From Stdlib Require Import ZArith Ascii.
#[local] Set Warnings "-register-all".
From stdpp Require Import strings pretty gmap list.

(** ** Go values *)

(** A Go [[]byte]; [string(b)] and [[]byte(s)] are the identity.  A nil slice
    and an empty one are both the empty string. *)
Abbreviation bytes := string (only parsing).

(** A Go [error] value is represented by its message. *)
Abbreviation error := string (only parsing).

(** The result pair [([]byte, error)] of a handler, or a run-time panic
    (indexing [args] out of range). *)
Inductive outcome (A : Type) : Type :=
  | Ret (a : A)
  | Fail (err : error)
  | Panic.
Arguments Ret {A} a.
Arguments Fail {A} err.
Arguments Panic {A}.

Definition is_Ret {A} (o : outcome A) : bool :=
  match o with Ret _ => true | _ => false end.

(** [int64] arithmetic wraps around. *)
Definition wrap64 (z : Z) : Z := ((z + 2 ^ 63) mod 2 ^ 64 - 2 ^ 63)%Z.

Definition mul64 (x y : Z) : Z := wrap64 (x * y).

(** [strconv.Itoa]. *)
Definition Itoa (i : Z) : string := pretty i.

(** ** Structure definitions *)

Record Beneficiary := mkBeneficiary {
  AccountId : string;
  Percentage : Z
}.

Record Track := mkTrack {
  Track_Id : string;
  Track_Title : string;
  Track_Artist : string;
  Track_Beneficiaries : list Beneficiary;
  Track_Content : string;
  Track_Price : Z
}.

(** [Recipient] and [Sender] are declared with type [Account] in the struct,
    but the only place that builds a [Payment] ([register_track], steps 4d)
    stores the accounts' [Id] strings in them; the record holds what is
    stored. *)
Record Payment := mkPayment {
  Recipient : string;
  Sender : string;
  Amount : Z;
  Completed : bool
}.

Record Account := mkAccount {
  Account_Id : string;
  Account_Name : string;
  Account_Balance : Z;
  Account_PendingPayments : list Payment
}.

Definition zeroTrack : Track := mkTrack "" "" "" [] "" 0.
Definition zeroAccount : Account := mkAccount "" "" 0 [].

Definition set_PendingPayments (a : Account) (ps : list Payment) : Account :=
  mkAccount (Account_Id a) (Account_Name a) (Account_Balance a) ps.

Global Instance Beneficiary_eq_dec : EqDecision Beneficiary.
Proof. solve_decision. Defined.
Global Instance Payment_eq_dec : EqDecision Payment.
Proof. solve_decision. Defined.
Global Instance Account_eq_dec : EqDecision Account.
Proof. solve_decision. Defined.
Global Instance Track_eq_dec : EqDecision Track.
Proof. solve_decision. Defined.

(** ** Index collections *)

Definition accountIndexStr : string := "_accounts".
Definition trackIndexStr : string := "_tracks".

(** ** The chaincode stub *)

(** The world state reached through the stub, with the keys whose reads and
    writes fail.  A key that was never written is read as an empty value and
    no error, as the shim does.  A handler returns the stub as it has left
    it, also next to an error; what the platform commits of it is not part
    of the model. *)
Record ChaincodeStub := mkStub {
  ledger : gmap string string;
  readFault : string -> bool;
  writeFault : string -> bool
}.

Definition GetState (stub : ChaincodeStub) (key : string) : bytes * option error :=
  if readFault stub key then ("", Some "GetState failed")
  else (default "" (ledger stub !! key), None).

Definition PutState (stub : ChaincodeStub) (key : string) (value : bytes)
  : ChaincodeStub * option error :=
  if writeFault stub key then (stub, Some "PutState failed")
  else (mkStub (<[key := value]> (ledger stub)) (readFault stub) (writeFault stub), None).

(** A stub none of whose reads or writes fails. *)
Definition healthy (stub : ChaincodeStub) : Prop :=
  forall key, readFault stub key = false /\ writeFault stub key = false.

Definition never (_ : string) : bool := false.

Definition stubOf (m : gmap string string) : ChaincodeStub := mkStub m never never.

(** ** encoding/json *)

(** [json.Unmarshal(data, &v)] on a zero-valued [v] gives what is left in [v]
    and the error; [json.Marshal] of the values the handlers pass never
    fails. *)
Class Json := {
  unmarshal_index : bytes -> list string * option error;
  marshal_index : list string -> bytes;
  unmarshal_track : bytes -> Track * option error;
  unmarshal_account : bytes -> Account * option error;
  marshal_account : Account -> bytes;
  marshal_tracks : list Track -> bytes
}.

(** ** Handlers *)

Section Chaincode.
Context `{J : Json}.

Definition Init (stub : ChaincodeStub) (function : string) (args : list string)
  : ChaincodeStub * outcome bytes :=
  (stub, Ret "").

(** "create":  true -> create new ID, false -> append the id *)
Definition append_id (stub : ChaincodeStub) (indexStr id : string) (create : bool)
  : ChaincodeStub * outcome bytes :=
  let '(indexAsBytes, err) := GetState stub indexStr in
  match err with
  | Some _ => (stub, Fail ("Failed to get " +:+ indexStr))
  | None =>
    (* Unmarshal the index; the error is dropped *)
    let tmpIndex := (unmarshal_index indexAsBytes).1 in
    (* Create new id *)
    let newId :=
      if create then id +:+ Itoa (Z.of_nat (length tmpIndex) + 1) else id in
    (* append the new id to the index *)
    let tmpIndex := tmpIndex ++ [newId] in
    let jsonAsBytes := marshal_index tmpIndex in
    let '(stub, err) := PutState stub indexStr jsonAsBytes in
    match err with
    | Some _ => (stub, Fail ("Error storing new " +:+ indexStr +:+ " into ledger"))
    | None => (stub, Ret newId)
    end
  end.

Definition add_account (stub : ChaincodeStub) (args : list string)
  : ChaincodeStub * outcome bytes :=
  match args !! 0 with
  | None => (stub, Panic)
  | Some arg0 =>
    match append_id stub accountIndexStr arg0 false with
    | (stub, Ret id) =>
      match args !! 1 with
      | None => (stub, Panic)
      | Some arg1 =>
        let '(stub, err) := PutState stub id arg1 in
        match err with
        | Some _ => (stub, Fail "Error putting user data on ledger")
        | None => (stub, Ret "")
        end
      end
    | (stub, Fail _) => (stub, Fail ("Error creating new id for user " +:+ arg0))
    | (stub, Panic) => (stub, Panic)
    end
  end.

Definition add_track (stub : ChaincodeStub) (args : list string)
  : ChaincodeStub * outcome bytes :=
  match args !! 0 with
  | None => (stub, Panic)
  | Some arg0 =>
    match append_id stub trackIndexStr arg0 false with
    | (stub, Ret id) =>
      match args !! 1 with
      | None => (stub, Panic)
      | Some arg1 =>
        let '(stub, err) := PutState stub id arg1 in
        match err with
        | Some _ => (stub, Fail "Error putting thing data on ledger")
        | None => (stub, Ret "")
        end
      end
    | (stub, Fail _) => (stub, Fail ("Error creating new id for thing " +:+ arg0))
    | (stub, Panic) => (stub, Panic)
    end
  end.

(** Steps 4c and 4d of [register_track]: the payment recorded for one
    beneficiary. *)
Definition pendingPaymentFor (t : Track) (account_sender account_recipient : Account)
    (beneficiary : Beneficiary) : Payment :=
  let amount := mul64 (Percentage beneficiary) (Track_Price t) in
  {| Amount := amount;
     Completed := false;
     Recipient := Account_Id account_recipient;
     Sender := Account_Id account_sender |}.

(** Step 3 of [register_track]: the loop over [t.Beneficiaries], with the
    payments accumulated for the sender so far.  The error message of 4a
    reads [track.Id]; the only track of the function is [t]. *)
Fixpoint register_track_loop (stub : ChaincodeStub) (t : Track) (account_sender : Account)
    (beneficiaries : list Beneficiary) (senderPayments : list Payment)
  : ChaincodeStub * outcome (list Payment) :=
  match beneficiaries with
  | [] => (stub, Ret senderPayments)
  | beneficiary :: beneficiaries =>
    (* 4a. get beneficiary account *)
    let '(bytes, err) := GetState stub (AccountId beneficiary) in
    match err with
    | Some _ => (stub, Fail ("Unable to get thing with ID: " +:+ Track_Id t))
    | None =>
      (* 4b. unmarshal account; the error is dropped *)
      let account_recipient := (unmarshal_account bytes).1 in
      (* 4c, 4d. *)
      let pendingPayment := pendingPaymentFor t account_sender account_recipient beneficiary in
      (* 4e. append PendingPayment to recipient *)
      let account_recipient :=
        set_PendingPayments account_recipient
          (Account_PendingPayments account_recipient ++ [pendingPayment]) in
      (* 4f. push pendingpayment to senderpayments *)
      let senderPayments := senderPayments ++ [pendingPayment] in
      (* 4g. Put beneficiary back in state; the error is dropped *)
      let accReciptientBytes := marshal_account account_recipient in
      let '(stub, _) := PutState stub (Account_Id account_recipient) accReciptientBytes in
      register_track_loop stub t account_sender beneficiaries senderPayments
    end
  end.

(** The body of [register_track] up to its last statement; on success the
    result is the local variable [account_sender] after step 5.  The error
    messages of 1b and 2b concatenate the bytes read, [json.Marshal] of 4g is
    taken for its bytes, and step 5 appends the elements of
    [senderPayments]. *)
Definition register_track_body (stub : ChaincodeStub) (args : list string)
  : ChaincodeStub * outcome Account :=
  match args !! 0 with
  | None => (stub, Panic)
  | Some arg0 =>
    (* 1. get track *)
    let '(trackBytes, err) := GetState stub arg0 in
    match err with
    | Some _ => (stub, Fail ("Could not fetch track " +:+ arg0))
    | None =>
      (* 1b. Unmarshal track *)
      let '(t, err) := unmarshal_track trackBytes in
      match err with
      | Some _ => (stub, Fail ("Could not unmarshal track " +:+ trackBytes))
      | None =>
        match args !! 1 with
        | None => (stub, Panic)
        | Some arg1 =>
          (* 2. get played by account *)
          let '(playedByBytes, err) := GetState stub arg1 in
          match err with
          | Some _ => (stub, Fail ("Could not fetch track " +:+ arg1))
          | None =>
            (* 2b. unmarshal account *)
            let '(account_sender, err) := unmarshal_account playedByBytes in
            match err with
            | Some _ => (stub, Fail ("Could not unmarshal account " +:+ playedByBytes))
            | None =>
              match register_track_loop stub t account_sender (Track_Beneficiaries t) [] with
              | (stub, Ret senderPayments) =>
                (* 5. append senderPayments to sender account *)
                let account_sender :=
                  set_PendingPayments account_sender
                    (Account_PendingPayments account_sender ++ senderPayments) in
                (stub, Ret account_sender)
              | (stub, Fail e) => (stub, Fail e)
              | (stub, Panic) => (stub, Panic)
              end
            end
          end
        end
      end
    end
  end.

(** Register that a track is played by an account.  The function ends after
    step 5 without a return statement: the local [account_sender] is dropped
    and the handler yields the zero results, as [add_track] does. *)
Definition register_track (stub : ChaincodeStub) (args : list string)
  : ChaincodeStub * outcome bytes :=
  match register_track_body stub args with
  | (stub, Ret _) => (stub, Ret "")
  | (stub, Fail e) => (stub, Fail e)
  | (stub, Panic) => (stub, Panic)
  end.

Definition Invoke (stub : ChaincodeStub) (function : string) (args : list string)
  : ChaincodeStub * outcome bytes :=
  if decide (function = "init") then Init stub "init" args
  else if decide (function = "add_account") then add_track stub args
  else if decide (function = "add_track") then add_track stub args
  else if decide (function = "register_track") then register_track stub args
  else (stub, Fail "Received unknown invoke function name").

Definition Run (stub : ChaincodeStub) (function : string) (args : list string)
  : ChaincodeStub * outcome bytes :=
  Invoke stub function args.

(** ** Query functions *)

Definition get_account (stub : ChaincodeStub) (userID : string) : outcome bytes :=
  let '(bytes, err) := GetState stub userID in
  match err with
  | Some _ => Fail "Could not retrieve information for this user"
  | None => Ret bytes
  end.

Definition get_track (stub : ChaincodeStub) (args : list string) : outcome bytes :=
  match args !! 1 with
  | None => Panic
  | Some arg1 =>
    let '(bytes, err) := GetState stub arg1 in
    match err with
    | Some _ => Fail "Error getting from ledger"
    | None => Ret bytes
    end
  end.

(** The loop of [get_all_tracks]: [for _, track := range tracks], whose body
    appends to the variable [tracks].  The range expression is evaluated
    once, so the loop runs over the value [tracks] had on entry. *)
Fixpoint get_all_tracks_loop (stub : ChaincodeStub) (range : list Track) (tracks : list Track)
  : outcome (list Track) :=
  match range with
  | [] => Ret tracks
  | track :: range =>
    let '(bytes, err) := GetState stub (Track_Id track) in
    match err with
    | Some _ => Fail ("Unable to get thing with ID: " +:+ Track_Id track)
    | None =>
      let t := (unmarshal_track bytes).1 in
      get_all_tracks_loop stub range (tracks ++ [t])
    end
  end.

Definition get_all_tracks (stub : ChaincodeStub) (args : list string) : outcome bytes :=
  let '(indexAsBytes, err) := GetState stub trackIndexStr in
  match err with
  | Some _ => Fail ("Failed to get " +:+ trackIndexStr)
  | None =>
    (* Unmarshal the index *)
    let '(trackIndex, errx) := unmarshal_index indexAsBytes in
    match errx with
    | Some _ => Fail ("Failed to get " +:+ trackIndexStr)
    | None =>
      let tracks : list Track := [] in
      match get_all_tracks_loop stub tracks tracks with
      | Ret tracks =>
        let tracksAsJsonBytes := marshal_tracks tracks in
        (* [err] is still the nil error of the read above *)
        match err with
        | Some _ => Fail "Could not convert things to JSON "
        | None => Ret tracksAsJsonBytes
        end
      | Fail e => Fail e
      | Panic => Panic
      end
    end
  end.

Definition Query (stub : ChaincodeStub) (function : string) (args : list string)
  : outcome bytes :=
  match args !! 0 with
  | None => Panic
  | Some arg0 =>
    if decide (arg0 = "get_account") then
      match args !! 1 with
      | None => Panic
      | Some arg1 => get_account stub arg1
      end
    else if decide (arg0 = "get_track") then get_track stub args
    else if decide (arg0 = "get_all_tracks") then get_all_tracks stub args
    else Fail "Received unknown query function name"
  end.

(** ** Derived notions used in the statements *)

(** The bytes a successful read of [key] yields. *)
Definition stored (stub : ChaincodeStub) (key : string) : bytes :=
  default "" (ledger stub !! key).

(** The list [append_id] and [get_all_tracks] find at an index key. *)
Definition stored_index (stub : ChaincodeStub) (indexStr : string) : list string :=
  (unmarshal_index (stored stub indexStr)).1.

(** The account a handler finds at a key. *)
Definition stored_account (stub : ChaincodeStub) (key : string) : Account :=
  (unmarshal_account (stored stub key)).1.

(** [append_id] with [create = true], [n] times in succession on the same
    index and candidate; the identifiers are collected in call order. *)
Fixpoint append_id_n (n : nat) (stub : ChaincodeStub) (indexStr id : string)
  : ChaincodeStub * outcome (list string) :=
  match n with
  | O => (stub, Ret [])
  | S n =>
    match append_id stub indexStr id true with
    | (stub, Ret newId) =>
      match append_id_n n stub indexStr id with
      | (stub, Ret ids) => (stub, Ret (newId :: ids))
      | (stub, Fail e) => (stub, Fail e)
      | (stub, Panic) => (stub, Panic)
      end
    | (stub, Fail e) => (stub, Fail e)
    | (stub, Panic) => (stub, Panic)
    end
  end.

(** An account with further payments appended to its pending ones. *)
Definition credit (a : Account) (ps : list Payment) : Account :=
  set_PendingPayments a (Account_PendingPayments a ++ ps).

End Chaincode.

(** ** Registrations in sequence *)

Section Sequences.
Context `{J : Json}.

(** [add_track] invoked for each entry [(id, payload)] in turn, each call on
    the ledger the previous one left. *)
Fixpoint add_tracks (stub : ChaincodeStub) (entries : list (string * string))
  : ChaincodeStub :=
  match entries with
  | [] => stub
  | (id, payload) :: entries => add_tracks (add_track stub [id; payload]).1 entries
  end.

End Sequences.

(** ** Certificate authentication *)

(** The two values a Go function returns beside an [error], or a run-time
    panic. *)
Inductive results (A : Type) : Type :=
  | Returns (a : A) (err : option error)
  | Panics.
Arguments Returns {A} a err.
Arguments Panics {A}.

(** What the handlers read of an [x509.Certificate]: the subject's common
    name and the extensions, each an object identifier with its value. *)
Record Extension := mkExtension {
  Ext_Id : list Z;
  Ext_Value : bytes
}.

Record Certificate := mkCertificate {
  Subject_CommonName : string;
  Extensions : list Extension
}.

(** The library calls of the certificate functions: [url.QueryUnescape]
    ([None] for an error), [pem.Decode] (the [Bytes] of the block found,
    [None] for the nil block it returns when the input holds no PEM data),
    [x509.ParseCertificate] ([None] for an error) and
    [strconv.ParseInt s base bitSize]. *)
Class CertLib := {
  QueryUnescape : string -> option string;
  pem_Decode : bytes -> option bytes;
  ParseCertificate : bytes -> option Certificate;
  ParseInt : string -> Z -> Z -> Z * option error
}.

Section Certificates.
Context `{L : CertLib}.

Definition get_cert_username (stub : ChaincodeStub) (encodedCert : string)
  : results string :=
  match QueryUnescape encodedCert with
  | None => Returns "" (Some "Could not decode certificate")
  | Some decodedCert =>
    match pem_Decode decodedCert with
    | None => Panics (* [pem.Bytes] on the nil block *)
    | Some pemBytes =>
      match ParseCertificate pemBytes with
      | None => Returns "" (Some "Couldn't parse certificate")
      | Some x509Cert => Returns (Subject_CommonName x509Cert) None
      end
    end
  end.

Definition ECertSubjectRole : list Z := [2; 1; 3; 4; 5; 6; 7]%Z.

(** The loop of [check_role] over [x509Cert.Extensions], with the value
    [role] has on entry; [reflect.DeepEqual] on two object identifiers is
    equality of the two lists. *)
Fixpoint check_role_loop (extensions : list Extension) (role : Z) : results Z :=
  match extensions with
  | [] => Returns role None
  | ext :: extensions =>
    if decide (Ext_Id ext = ECertSubjectRole) then
      let '(role, err) :=
        ParseInt (Ext_Value ext) 10 (Z.of_nat (String.length (Ext_Value ext)) * 8) in
      match err with
      | Some e => Returns (-1)%Z (Some ("Failed parsing role: " +:+ e))
      | None => Returns role None (* break *)
      end
    else check_role_loop extensions role
  end.

Definition check_role (stub : ChaincodeStub) (encodedCert : string) : results Z :=
  match QueryUnescape encodedCert with
  | None => Returns (-1)%Z (Some "Could not decode certificate")
  | Some decodedCert =>
    match pem_Decode decodedCert with
    | None => Panics (* [pem.Bytes] on the nil block *)
    | Some pemBytes =>
      match ParseCertificate pemBytes with
      | None => Returns (-1)%Z (Some "Couldn't parse certificate")
      | Some x509Cert => check_role_loop (Extensions x509Cert) 0
      end
    end
  end.

End Certificates.

(** ** An executable JSON codec *)

(** The fragment of [encoding/json] that the stored records need: objects,
    arrays, strings, integers, booleans and [null], with white space between
    tokens.  A type mismatch leaves the zero value in the field and reports
    an error while the rest is still decoded; a syntax error leaves the whole
    target zero.  Simplifications: field names are matched up to ASCII case,
    bytes above 0x7f are copied as they are (strings are taken to be valid
    UTF-8), [\u] escapes denote code points below 0x80 only, numbers are
    integer literals, and an empty list stands for the nil slice and is
    printed as [null]. *)
Module CompactJson.

Inductive json : Type :=
  | JNull
  | JBool (b : bool)
  | JNum (z : Z)
  | JStr (s : string)
  | JArr (l : list json)
  | JObj (l : list (string * json)).

Definition dquote : ascii := "034"%char.
Definition bslash : ascii := "092"%char.

Definition hexdigit (n : N) : ascii :=
  ascii_of_N (if (n <? 10)%N then 48 + n else 87 + n).

(** The escape sequence [encoding/json] writes for a byte. *)
Definition escape_char (c : ascii) : string :=
  let n := N_of_ascii c in
  if decide (c = dquote) then String bslash (String dquote "")
  else if decide (c = bslash) then String bslash (String bslash "")
  else if (n =? 10)%N then String bslash "n"
  else if (n =? 13)%N then String bslash "r"
  else if (n =? 9)%N then String bslash "t"
  else if ((n <? 32) || (n =? 60) || (n =? 62) || (n =? 38))%N then
    String bslash
      (String "u" (String "0" (String "0"
        (String (hexdigit (n / 16)) (String (hexdigit (n mod 16)) "")))))
  else String c "".

Fixpoint escape (s : string) : string :=
  match s with
  | "" => ""
  | String c s => escape_char c +:+ escape s
  end.

Definition print_string (s : string) : string :=
  String dquote (escape s +:+ String dquote "").

Fixpoint print_elements {A} (print : A -> string) (l : list A) : string :=
  match l with
  | [] => ""
  | [x] => print x
  | x :: l => print x +:+ "," +:+ print_elements print l
  end.

Definition print_slice {A} (print : A -> string) (l : list A) : string :=
  match l with
  | [] => "null"
  | _ => "[" +:+ print_elements print l +:+ "]"
  end.

Definition print_field (name value : string) : string :=
  print_string name +:+ ":" +:+ value.

Definition print_int (z : Z) : string := pretty z.

Definition print_bool (b : bool) : string := if b then "true" else "false".

Definition print_object (fields : list string) : string :=
  "{" +:+ print_elements id fields +:+ "}".

Definition print_beneficiary (b : Beneficiary) : string :=
  print_object
    [print_field "accountId" (print_string (AccountId b));
     print_field "percentage" (print_int (Percentage b))].

Definition print_track (t : Track) : string :=
  print_object
    [print_field "id" (print_string (Track_Id t));
     print_field "title" (print_string (Track_Title t));
     print_field "artist" (print_string (Track_Artist t));
     print_field "beneficiaries" (print_slice print_beneficiary (Track_Beneficiaries t));
     print_field "content" (print_string (Track_Content t));
     print_field "price" (print_int (Track_Price t))].

Definition print_payment (p : Payment) : string :=
  print_object
    [print_field "recipient" (print_string (Recipient p));
     print_field "sender" (print_string (Sender p));
     print_field "amount" (print_int (Amount p));
     print_field "completed" (print_bool (Completed p))].

Definition print_account (a : Account) : string :=
  print_object
    [print_field "id" (print_string (Account_Id a));
     print_field "name" (print_string (Account_Name a));
     print_field "balance" (print_int (Account_Balance a));
     print_field "pendingPayments" (print_slice print_payment (Account_PendingPayments a))].

(** *** Parsing *)

Definition is_ws (c : ascii) : bool :=
  let n := N_of_ascii c in ((n =? 32) || (n =? 9) || (n =? 10) || (n =? 13))%N.

Fixpoint skip_ws (s : string) : string :=
  match s with
  | String c rest => if is_ws c then skip_ws rest else s
  | "" => ""
  end.

Definition hexval (c : ascii) : option N :=
  let n := N_of_ascii c in
  if ((48 <=? n) && (n <=? 57))%N then Some (n - 48)%N
  else if ((97 <=? n) && (n <=? 102))%N then Some (n - 87)%N
  else if ((65 <=? n) && (n <=? 70))%N then Some (n - 55)%N
  else None.

(** [\uXXXX] for a code point below 0x80. *)
Definition unicode_escape (a b c d : ascii) : option ascii :=
  match hexval a, hexval b, hexval c, hexval d with
  | Some 0%N, Some 0%N, Some h, Some l =>
    if (h <? 8)%N then Some (ascii_of_N (16 * h + l)) else None
  | _, _, _, _ => None
  end.

Definition simple_escape (c : ascii) : option ascii :=
  if decide (c = dquote) then Some dquote
  else if decide (c = bslash) then Some bslash
  else if decide (c = "/"%char) then Some "/"%char
  else if decide (c = "b"%char) then Some "008"%char
  else if decide (c = "f"%char) then Some "012"%char
  else if decide (c = "n"%char) then Some "010"%char
  else if decide (c = "r"%char) then Some "013"%char
  else if decide (c = "t"%char) then Some "009"%char
  else None.

Definition cons_fst (c : ascii) (r : option (string * string)) : option (string * string) :=
  match r with
  | Some (s, rest) => Some (String c s, rest)
  | None => None
  end.

(** The characters of a string literal after its opening quote, and what
    follows the closing quote. *)
Fixpoint string_body (s : string) : option (string * string) :=
  match s with
  | "" => None
  | String c rest =>
    if decide (c = dquote) then Some ("", rest)
    else if decide (c = bslash) then
      match rest with
      | String "u" (String h1 (String h2 (String h3 (String h4 rest')))) =>
        match unicode_escape h1 h2 h3 h4 with
        | Some c' => cons_fst c' (string_body rest')
        | None => None
        end
      | String e rest' =>
        match simple_escape e with
        | Some c' => cons_fst c' (string_body rest')
        | None => None
        end
      | "" => None
      end
    else if (N_of_ascii c <? 32)%N then None
    else cons_fst c (string_body rest)
  end.

Definition digit (c : ascii) : option Z :=
  let n := N_of_ascii c in
  if ((48 <=? n) && (n <=? 57))%N then Some (Z.of_N (n - 48)) else None.

Fixpoint digits (acc : Z) (s : string) : Z * string :=
  match s with
  | String c rest =>
    match digit c with
    | Some d => digits (10 * acc + d) rest
    | None => (acc, s)
    end
  | "" => (acc, "")
  end.

(** An integer literal: no leading zero, no fraction, no exponent. *)
Definition number (s : string) : option (Z * string) :=
  let '(neg, s) :=
    match s with
    | String "-" rest => (true, rest)
    | _ => (false, s)
    end in
  match s with
  | String c rest =>
    match digit c with
    | Some d =>
      let '(z, rest') := if decide (d = 0%Z) then (0%Z, rest) else digits d rest in
      let ok :=
        match rest' with
        | String c' _ =>
          match digit c' with
          | Some _ => false
          | None => negb (bool_decide (c' = "."%char \/ c' = "e"%char \/ c' = "E"%char))
          end
        | "" => true
        end in
      if ok then Some (if neg then (- z)%Z else z, rest') else None
    | None => None
    end
  | "" => None
  end.

Definition literal (word : string) (v : json) (s : string) : option (json * string) :=
  if decide (String.substring 0 (String.length word) s = word)
  then Some (v, String.substring (String.length word) (String.length s - String.length word) s)
  else None.

Fixpoint parse_value (fuel : nat) (s : string) {struct fuel} : option (json * string) :=
  match fuel with
  | O => None
  | S fuel =>
    match skip_ws s with
    | "" => None
    | String c rest =>
      if decide (c = dquote) then
        match string_body rest with
        | Some (str, rest) => Some (JStr str, rest)
        | None => None
        end
      else if decide (c = "["%char) then
        match skip_ws rest with
        | String "]" rest => Some (JArr [], rest)
        | _ =>
          match parse_elements fuel rest with
          | Some (vs, rest) => Some (JArr vs, rest)
          | None => None
          end
        end
      else if decide (c = "{"%char) then
        match skip_ws rest with
        | String "}" rest => Some (JObj [], rest)
        | _ =>
          match parse_members fuel rest with
          | Some (ms, rest) => Some (JObj ms, rest)
          | None => None
          end
        end
      else if decide (c = "n"%char) then literal "ull" JNull rest
      else if decide (c = "t"%char) then literal "rue" (JBool true) rest
      else if decide (c = "f"%char) then literal "alse" (JBool false) rest
      else
        match number (String c rest) with
        | Some (z, rest) => Some (JNum z, rest)
        | None => None
        end
    end
  end
with parse_elements (fuel : nat) (s : string) {struct fuel} : option (list json * string) :=
  match fuel with
  | O => None
  | S fuel =>
    match parse_value fuel s with
    | Some (v, rest) =>
      match skip_ws rest with
      | String "," rest =>
        match parse_elements fuel rest with
        | Some (vs, rest) => Some (v :: vs, rest)
        | None => None
        end
      | String "]" rest => Some ([v], rest)
      | _ => None
      end
    | None => None
    end
  end
with parse_members (fuel : nat) (s : string) {struct fuel}
  : option (list (string * json) * string) :=
  match fuel with
  | O => None
  | S fuel =>
    match skip_ws s with
    | String c rest =>
      if decide (c = dquote) then
        match string_body rest with
        | Some (key, rest) =>
          match skip_ws rest with
          | String ":" rest =>
            match parse_value fuel rest with
            | Some (v, rest) =>
              match skip_ws rest with
              | String "," rest =>
                match parse_members fuel rest with
                | Some (ms, rest) => Some ((key, v) :: ms, rest)
                | None => None
                end
              | String "}" rest => Some ([(key, v)], rest)
              | _ => None
              end
            | None => None
            end
          | _ => None
          end
        | None => None
        end
      else None
    | "" => None
    end
  end.

(** A whole document: one value and nothing but white space after it. *)
Definition parse (s : string) : option json :=
  match parse_value (S (String.length s)) s with
  | Some (v, rest) =>
    match skip_ws rest with
    | "" => Some v
    | _ => None
    end
  | None => None
  end.

(** *** Decoding into the Go types *)

Definition lower (c : ascii) : ascii :=
  let n := N_of_ascii c in
  if ((65 <=? n) && (n <=? 90))%N then ascii_of_N (n + 32) else c.

Fixpoint fold_case (s : string) : string :=
  match s with
  | "" => ""
  | String c s => String (lower c) (fold_case s)
  end.

Definition same_name (a b : string) : bool :=
  bool_decide (fold_case a = fold_case b).

(** The value of the last member with the field's name. *)
Fixpoint member (name : string) (ms : list (string * json)) : option json :=
  match ms with
  | [] => None
  | (k, v) :: ms =>
    match member name ms with
    | Some v' => Some v'
    | None => if same_name k name then Some v else None
    end
  end.

(** A decoder gives the decoded value and whether a type mismatch occurred;
    a missing member and [null] leave the zero value. *)
Definition dec_string (v : option json) : string * bool :=
  match v with
  | None | Some JNull => ("", false)
  | Some (JStr s) => (s, false)
  | Some _ => ("", true)
  end.

Definition in_int64 (z : Z) : bool := ((- 2 ^ 63 <=? z) && (z <? 2 ^ 63))%Z.

Definition dec_int64 (v : option json) : Z * bool :=
  match v with
  | None | Some JNull => (0%Z, false)
  | Some (JNum z) => if in_int64 z then (z, false) else (0%Z, true)
  | Some _ => (0%Z, true)
  end.

Definition dec_bool (v : option json) : bool * bool :=
  match v with
  | None | Some JNull => (false, false)
  | Some (JBool b) => (b, false)
  | Some _ => (false, true)
  end.

Definition dec_slice {A} (dec : option json -> A * bool) (v : option json) : list A * bool :=
  match v with
  | None | Some JNull => ([], false)
  | Some (JArr l) =>
    (map (fun x => (dec (Some x)).1) l, existsb (fun x => (dec (Some x)).2) l)
  | Some _ => ([], true)
  end.

Definition dec_beneficiary (v : option json) : Beneficiary * bool :=
  match v with
  | None | Some JNull => (mkBeneficiary "" 0, false)
  | Some (JObj ms) =>
    let '(accountId, e1) := dec_string (member "accountId" ms) in
    let '(percentage, e2) := dec_int64 (member "percentage" ms) in
    (mkBeneficiary accountId percentage, e1 || e2)
  | Some _ => (mkBeneficiary "" 0, true)
  end.

Definition dec_track (v : option json) : Track * bool :=
  match v with
  | None | Some JNull => (zeroTrack, false)
  | Some (JObj ms) =>
    let '(id, e1) := dec_string (member "id" ms) in
    let '(title, e2) := dec_string (member "title" ms) in
    let '(artist, e3) := dec_string (member "artist" ms) in
    let '(beneficiaries, e4) := dec_slice dec_beneficiary (member "beneficiaries" ms) in
    let '(content, e5) := dec_string (member "content" ms) in
    let '(price, e6) := dec_int64 (member "price" ms) in
    (mkTrack id title artist beneficiaries content price,
     e1 || e2 || e3 || e4 || e5 || e6)
  | Some _ => (zeroTrack, true)
  end.

Definition dec_payment (v : option json) : Payment * bool :=
  match v with
  | None | Some JNull => (mkPayment "" "" 0 false, false)
  | Some (JObj ms) =>
    let '(recipient, e1) := dec_string (member "recipient" ms) in
    let '(sender, e2) := dec_string (member "sender" ms) in
    let '(amount, e3) := dec_int64 (member "amount" ms) in
    let '(completed, e4) := dec_bool (member "completed" ms) in
    (mkPayment recipient sender amount completed, e1 || e2 || e3 || e4)
  | Some _ => (mkPayment "" "" 0 false, true)
  end.

Definition dec_account (v : option json) : Account * bool :=
  match v with
  | None | Some JNull => (zeroAccount, false)
  | Some (JObj ms) =>
    let '(id, e1) := dec_string (member "id" ms) in
    let '(name, e2) := dec_string (member "name" ms) in
    let '(balance, e3) := dec_int64 (member "balance" ms) in
    let '(pendingPayments, e4) := dec_slice dec_payment (member "pendingPayments" ms) in
    (mkAccount id name balance pendingPayments, e1 || e2 || e3 || e4)
  | Some _ => (zeroAccount, true)
  end.

(** [json.Unmarshal] into a zero value of the decoder's type. *)
Definition unmarshal {A} (dec : option json -> A * bool) (data : bytes)
  : A * option error :=
  match parse data with
  | None => ((dec None).1, Some "invalid JSON input")
  | Some v =>
    let '(x, e) := dec (Some v) in
    (x, if e then Some "json: cannot unmarshal value into Go type" else None)
  end.

Definition codec : Json := {|
  unmarshal_index := unmarshal (dec_slice dec_string);
  marshal_index := print_slice print_string;
  unmarshal_track := unmarshal dec_track;
  unmarshal_account := unmarshal dec_account;
  marshal_account := print_account;
  marshal_tracks := print_slice print_track
|}.

End CompactJson.

(** ** A small ledger to run the handlers on *)

Abbreviation codec := CompactJson.codec.

(** Two artists, a listener, and a track that pays the artists 30 and 70
    percent of its price of 100; the records are stored as their JSON text
    under their own identifiers. *)
Definition alice : Account := mkAccount "A" "Alice" 0 [].
Definition bob : Account := mkAccount "B" "Bob" 0 [].
Definition listener : Account := mkAccount "S" "Listener" 500 [].

Definition song : Track :=
  mkTrack "t1" "Song" "Band" [mkBeneficiary "A" 30; mkBeneficiary "B" 70] "sha-1f3a" 100.

(** A track one of whose beneficiaries has no account on the ledger. *)
Definition orphanSong : Track :=
  mkTrack "t2" "Tune" "Band" [mkBeneficiary "A" 30; mkBeneficiary "ghost" 70] "sha-77c0" 100.

Definition demoLedger : gmap string string :=
  <["t1" := CompactJson.print_track song]>
  (<["t2" := CompactJson.print_track orphanSong]>
  (<["A" := CompactJson.print_account alice]>
  (<["B" := CompactJson.print_account bob]>
  (<["S" := CompactJson.print_account listener]> ∅)))).

Definition demoStub : ChaincodeStub := stubOf demoLedger.

(** The same ledger behind a stub that refuses to write under the empty
    key. *)
Definition strictStub : ChaincodeStub :=
  mkStub demoLedger never (fun key => bool_decide (key = "")).

Definition emptyStub : ChaincodeStub := stubOf ∅.

(** The ledger after [add_track] was invoked for three tracks in turn. *)
Definition threeTracksStub : ChaincodeStub :=
  let add (stub : ChaincodeStub) (t : Track) : ChaincodeStub :=
    (add_track (J := CompactJson.codec) stub [Track_Id t; CompactJson.print_track t]).1 in
  add (add (add emptyStub song) orphanSong) (mkTrack "t3" "Air" "Duo" [] "sha-0b1e" 5).

(** A ledger whose track index holds bytes that are not JSON. *)
Definition brokenIndexStub : ChaincodeStub :=
  stubOf (<[trackIndexStr := "not json"]> ∅).

(** The sample ledger behind stubs whose reads, or whose writes, all
    fail, and one whose only failing write is that of the record ["t9"]. *)
Definition offlineStub : ChaincodeStub := mkStub demoLedger (fun _ => true) never.
Definition readOnlyStub : ChaincodeStub := mkStub demoLedger never (fun _ => true).
Definition noRecordStub : ChaincodeStub :=
  mkStub demoLedger never (fun key => bool_decide (key = "t9")).

(** The sample ledger when the account of ["B"] cannot be read. *)
Definition bUnreadableStub : ChaincodeStub :=
  mkStub demoLedger (fun key => bool_decide (key = "B")) never.

(** A track without beneficiaries on the sample ledger. *)
Definition freeSong : Track := mkTrack "t0" "Jingle" "Band" [] "sha-5d20" 100.

Definition freeStub : ChaincodeStub :=
  stubOf (<["t0" := CompactJson.print_track freeSong]> demoLedger).

(** Stand-ins for the certificate libraries: certificates are looked up by
    name, a PEM block is any text after the prefix [PEM:], and the role is a
    single decimal digit. *)
Definition roleCert : Certificate :=
  mkCertificate "alice"
    [mkExtension [2; 5; 29; 15]%Z "usage";
     mkExtension ECertSubjectRole "2";
     mkExtension ECertSubjectRole "7"].

Definition plainCert : Certificate :=
  mkCertificate "bob" [mkExtension [2; 5; 29; 15]%Z "usage"].

Definition demoCertLib : CertLib := {|
  QueryUnescape := fun s => if decide (s = "%") then None else Some s;
  pem_Decode := fun s =>
    match s with
    | String "P" (String "E" (String "M" (String ":" body))) => Some body
    | _ => None
    end;
  ParseCertificate := fun b =>
    if decide (b = "role") then Some roleCert
    else if decide (b = "plain") then Some plainCert
    else None;
  ParseInt := fun s _ _ =>
    match s with
    | String c "" =>
      match Ascii.is_nat c with
      | Some n => (Z.of_nat n, None)
      | None => (0%Z, Some "invalid syntax")
      end
    | _ => (0%Z, Some "invalid syntax")
    end
|}.

(** * Properties of the handlers *)

Section ChaincodeFacts.
Context `{J : Json}.

Lemma GetState_ok stub key :
  readFault stub key = false -> GetState stub key = (stored stub key, None).
Proof. intros H. unfold GetState, stored. by rewrite H. Qed.

Lemma PutState_ok stub key value :
  writeFault stub key = false ->
  PutState stub key value
  = (mkStub (<[key := value]> (ledger stub)) (readFault stub) (writeFault stub), None).
Proof. intros H. unfold PutState. by rewrite H. Qed.

Lemma PutState_faults stub key value :
  readFault (PutState stub key value).1 = readFault stub /\
  writeFault (PutState stub key value).1 = writeFault stub.
Proof. unfold PutState. by destruct (writeFault stub key). Qed.

Lemma stored_insert (m : gmap string string) (r w : string -> bool) (key k : string)
    (value : bytes) :
  stored (mkStub (<[key := value]> m) r w) k
  = if decide (key = k) then value else stored (mkStub m r w) k.
Proof.
  unfold stored; simpl. rewrite lookup_insert. by case_decide.
Qed.

(** *** [append_id] *)

(** What one call does when the index can be read and written: the decoded
    list (whatever the decoder left, error or not) gets the identifier
    appended and is written back. *)
Lemma append_id_ok (stub : ChaincodeStub) (indexStr id : string) (create : bool) :
  readFault stub indexStr = false ->
  writeFault stub indexStr = false ->
  let newId :=
    if create then id +:+ Itoa (Z.of_nat (length (stored_index stub indexStr)) + 1)
    else id in
  append_id stub indexStr id create
  = (mkStub (<[indexStr := marshal_index (stored_index stub indexStr ++ [newId])]> (ledger stub))
       (readFault stub) (writeFault stub),
     Ret newId).
Proof.
  intros Hr Hw. unfold append_id.
  rewrite (GetState_ok _ _ Hr). cbn zeta.
  rewrite PutState_ok by done. reflexivity.
Qed.

(** [append_id] fails exactly when the read or the write of the index
    fails; the result of decoding plays no part. *)
Lemma append_id_outcome (stub : ChaincodeStub) (indexStr id : string) (create : bool) :
  is_Ret (append_id stub indexStr id create).2
  = negb (readFault stub indexStr) && negb (writeFault stub indexStr).
Proof.
  unfold append_id, GetState, PutState.
  destruct (readFault stub indexStr); [done|].
  by destruct (writeFault stub indexStr).
Qed.

Lemma Itoa_inj : Inj (=) (=) Itoa.
Proof. unfold Itoa. apply _. Qed.

Lemma generated_ids_NoDup (id : string) (k n : nat) :
  NoDup ((fun i => id +:+ Itoa (Z.of_nat (k + i) + 1)) <$> seq 0 n).
Proof.
  apply NoDup_fmap_2; [|apply NoDup_seq].
  intros i j Hij. apply (inj (String.app id)) in Hij.
  apply Itoa_inj in Hij. lia.
Qed.

Lemma append_id_n_ok n : forall (stub : ChaincodeStub) (indexStr id : string),
  readFault stub indexStr = false ->
  writeFault stub indexStr = false ->
  (forall l, length (unmarshal_index (marshal_index l)).1 = length l) ->
  let k := length (stored_index stub indexStr) in
  exists stub',
    append_id_n n stub indexStr id
    = (stub', Ret ((fun i => id +:+ Itoa (Z.of_nat (k + i) + 1)) <$> seq 0 n)) /\
    length (stored_index stub' indexStr) = k + n.
Proof.
  induction n as [|n IH]; intros stub indexStr id Hr Hw Hlen k.
  - exists stub. split; [done|]. subst k. lia.
  - cbn [append_id_n]. rewrite (append_id_ok _ _ _ true Hr Hw). cbn zeta.
    fold k.
    match goal with |- context [append_id_n n ?s] => set (stub1 := s) end.
    assert (Hk1 : length (stored_index stub1 indexStr) = S k).
    { unfold stored_index, stub1. rewrite stored_insert.
      rewrite decide_True by done. rewrite Hlen, length_app. simpl. lia. }
    destruct (IH stub1 indexStr id Hr Hw Hlen) as (stub' & Hrun & Hlen').
    rewrite Hrun. exists stub'. split.
    + f_equal. f_equal. cbn [seq fmap list_fmap]. f_equal.
      * do 3 f_equal. lia.
      * rewrite Hk1. rewrite <- seq_shift. rewrite <- list_fmap_compose.
        apply list_fmap_ext. intros i x _. unfold compose.
        do 2 f_equal. lia.
    + rewrite Hlen', Hk1. lia.
Qed.

End ChaincodeFacts.

(** * Properties of the executable codec *)

Module CompactJsonFacts.
Import CompactJson.

Lemma string_app_nil (b : string) : "" +:+ b = b.
Proof. reflexivity. Qed.

Lemma string_app_cons (x : ascii) (a b : string) :
  String x a +:+ b = String x (a +:+ b).
Proof. reflexivity. Qed.

Ltac push_app := rewrite ?string_app_cons, ?string_app_nil.

Lemma string_app_assoc (a b c : string) : (a +:+ b) +:+ c = a +:+ (b +:+ c).
Proof. induction a as [|x a IH]; push_app; [done|]. by f_equal. Qed.

Lemma string_length_app (a b : string) :
  String.length (a +:+ b) = String.length a + String.length b.
Proof. induction a as [|x a IH]; push_app; simpl; [done|]. by f_equal. Qed.

(** Reading back the escape sequence of a byte yields the byte. *)
Lemma string_body_escape_char (c : ascii) (rest : string) :
  string_body (escape_char c +:+ rest) = cons_fst c (string_body rest).
Proof.
  destruct c as [[] [] [] [] [] [] [] []]; reflexivity.
Qed.

Lemma string_body_escape (s rest : string) :
  string_body (escape s +:+ String dquote rest) = Some (s, rest).
Proof.
  induction s as [|c s IH]; [reflexivity|].
  cbn [escape]. rewrite string_app_assoc, string_body_escape_char, IH.
  reflexivity.
Qed.

Lemma parse_value_string (fuel : nat) (s rest : string) :
  parse_value (S fuel) (print_string s +:+ rest) = Some (JStr s, rest).
Proof.
  unfold print_string. push_app. rewrite string_app_assoc. push_app.
  cbn [parse_value skip_ws].
  replace (is_ws dquote) with false by reflexivity.
  rewrite decide_True by done.
  by rewrite string_body_escape.
Qed.

Lemma print_elements_cons (x y : string) (l : list string) :
  print_elements print_string (x :: y :: l)
  = print_string x +:+ String "," (print_elements print_string (y :: l)).
Proof. reflexivity. Qed.

Lemma parse_elements_S (fuel : nat) (s : string) :
  parse_elements (S fuel) s
  = match parse_value fuel s with
    | Some (v, rest) =>
      match skip_ws rest with
      | String "," rest =>
        match parse_elements fuel rest with
        | Some (vs, rest) => Some (v :: vs, rest)
        | None => None
        end
      | String "]" rest => Some ([v], rest)
      | _ => None
      end
    | None => None
    end.
Proof. reflexivity. Qed.

Lemma parse_elements_strings (l : list string) :
  l <> [] ->
  forall (fuel : nat) (rest : string),
    length l < fuel ->
    parse_elements fuel (print_elements print_string l +:+ String "]" rest)
    = Some (JStr <$> l, rest).
Proof.
  induction l as [|x l IH]; [done|]. intros _ fuel rest Hfuel.
  destruct fuel as [|[|fuel]]; [simpl in Hfuel; lia ..|].
  rewrite parse_elements_S.
  destruct l as [|y l].
  - cbn [print_elements]. rewrite parse_value_string. reflexivity.
  - rewrite print_elements_cons, string_app_assoc, parse_value_string.
    push_app. cbn [skip_ws]. replace (is_ws ",") with false by reflexivity.
    rewrite IH; [reflexivity|done|simpl in *; lia].
Qed.

Lemma print_string_length (s : string) : 2 <= String.length (print_string s).
Proof.
  unfold print_string. cbn [String.length]. rewrite string_length_app. simpl. lia.
Qed.

Lemma print_elements_length (l : list string) :
  length l <= String.length (print_elements print_string l).
Proof.
  induction l as [|x l IH]; [done|].
  destruct l as [|y l].
  - pose proof (print_string_length x). simpl in *. lia.
  - rewrite print_elements_cons, string_length_app.
    pose proof (print_string_length x). simpl in *. lia.
Qed.

Lemma print_elements_head (x : string) (l : list string) :
  exists tail, print_elements print_string (x :: l) = String dquote tail.
Proof.
  destruct l; [|rewrite print_elements_cons]; unfold print_string; push_app; eauto.
Qed.

Lemma parse_index (l : list string) :
  parse (print_slice print_string l)
  = Some (match l with [] => JNull | _ => JArr (JStr <$> l) end).
Proof.
  destruct l as [|x l]; [reflexivity|].
  unfold parse, print_slice.
  set (body := print_elements print_string (x :: l)).
  assert (Hlen : length (x :: l) <= String.length body)
    by apply print_elements_length.
  push_app. cbn [String.length parse_value skip_ws].
  replace (is_ws "[") with false by reflexivity.
  rewrite decide_False by done. rewrite decide_True by done.
  destruct (print_elements_head x l) as [tail Htail].
  fold body in Htail.
  replace (skip_ws (body +:+ "]")) with (String dquote (tail +:+ "]"))
    by (rewrite Htail; reflexivity).
  rewrite (parse_elements_strings (x :: l)); [reflexivity|done|].
  rewrite string_length_app. simpl in *. lia.
Qed.

Lemma dec_strings (l : list string) :
  dec_slice dec_string (Some (JArr (JStr <$> l))) = (l, false).
Proof.
  unfold dec_slice. f_equal.
  - induction l as [|x l IH]; [done|]. csimpl. by f_equal.
  - induction l as [|x l IH]; [done|]. csimpl. exact IH.
Qed.

(** The index decoder reads back every list the encoder writes. *)
Lemma codec_index_roundtrip (l : list string) :
  @unmarshal_index codec (@marshal_index codec l) = (l, None).
Proof.
  cbn [unmarshal_index marshal_index codec]. unfold unmarshal.
  rewrite parse_index. destruct l as [|x l]; [reflexivity|].
  by rewrite dec_strings.
Qed.

Lemma codec_index_length (l : list string) :
  length (@unmarshal_index codec (@marshal_index codec l)).1 = length l.
Proof. by rewrite codec_index_roundtrip. Qed.

(** Empty input is a syntax error and leaves the target zero. *)
Lemma codec_index_empty : @unmarshal_index codec "" = ([], Some "invalid JSON input").
Proof. reflexivity. Qed.

End CompactJsonFacts.

(** * The index registry and the queries *)

Section IndexAndQueries.
Context `{J : Json}.

(** The dispatcher sends [add_account] to the handler of [add_track]. *)
Lemma Invoke_add_account_is_add_track (stub : ChaincodeStub) (args : list string) :
  Invoke stub "add_account" args = add_track stub args.
Proof. reflexivity. Qed.

(** What [add_account] itself does when it is called: the accounts index
    gets the identifier, the record is stored, the tracks index is left
    alone. *)
Lemma add_account_ok (stub : ChaincodeStub) (id accountJson : string) :
  healthy stub ->
  id <> accountIndexStr -> id <> trackIndexStr ->
  let stub' := (add_account stub [id; accountJson]).1 in
  (add_account stub [id; accountJson]).2 = Ret "" /\
  ledger stub' !! accountIndexStr
    = Some (marshal_index (stored_index stub accountIndexStr ++ [id])) /\
  ledger stub' !! id = Some accountJson /\
  ledger stub' !! trackIndexStr = ledger stub !! trackIndexStr.
Proof.
  intros Hh Hna Hnt. unfold add_account. cbn [lookup list_lookup].
  rewrite (append_id_ok stub accountIndexStr id false) by apply Hh.
  cbn zeta. rewrite PutState_ok by apply Hh. cbn [fst snd ledger].
  repeat split.
  - rewrite lookup_insert_ne by done. apply lookup_insert_eq.
  - apply lookup_insert_eq.
  - rewrite !lookup_insert_ne by done. reflexivity.
Qed.

(** C5.  With [create = true], [append_id] returns the candidate followed by
    the decimal numeral of the current index length plus one; [n] calls in
    succession return [n] pairwise distinct identifiers and make the stored
    index [n] entries longer.  The index key must be readable and writable,
    and decoding an encoded list must give a list of the same length. *)
Theorem append_id_generates_distinct
    (stub : ChaincodeStub) (indexStr id : string) (n : nat) :
  readFault stub indexStr = false ->
  writeFault stub indexStr = false ->
  (forall l, length (unmarshal_index (marshal_index l)).1 = length l) ->
  let k := length (stored_index stub indexStr) in
  (append_id stub indexStr id true).2 = Ret (id +:+ Itoa (Z.of_nat k + 1)) /\
  exists stub' ids,
    append_id_n n stub indexStr id = (stub', Ret ids) /\
    length ids = n /\
    NoDup ids /\
    length (stored_index stub' indexStr) = k + n.
Proof.
  intros Hr Hw Hlen k. split.
  - by rewrite (append_id_ok stub indexStr id true Hr Hw).
  - destruct (append_id_n_ok n stub indexStr id Hr Hw Hlen) as (stub' & Hrun & Hk).
    eexists stub', _. split; [exact Hrun|]. split; [|split].
    + by rewrite length_fmap, length_seq.
    + apply generated_ids_NoDup.
    + exact Hk.
Qed.

(** C7, as amended.  [get_all_tracks] reads the [_tracks] index and returns
    the error [Failed to get _tracks] exactly when the read fails or the
    stored bytes do not decode as a list of identifiers.  A missing index key
    reads as empty bytes; when the decoder rejects those, the query is an
    error, not an empty result. *)
Theorem get_all_tracks_index_guard (stub : ChaincodeStub) (args : list string) :
  (get_all_tracks stub args = Fail ("Failed to get " +:+ trackIndexStr)
   <-> readFault stub trackIndexStr = true
       \/ (unmarshal_index (stored stub trackIndexStr)).2 <> None) /\
  (ledger stub !! trackIndexStr = None ->
   (unmarshal_index "").2 <> None ->
   get_all_tracks stub args = Fail ("Failed to get " +:+ trackIndexStr)).
Proof.
  assert (Hiff : get_all_tracks stub args = Fail ("Failed to get " +:+ trackIndexStr)
    <-> readFault stub trackIndexStr = true
        \/ (unmarshal_index (stored stub trackIndexStr)).2 <> None).
  { unfold get_all_tracks, GetState, stored.
    destruct (readFault stub trackIndexStr) eqn:Hr; [by split; auto|].
    destruct (unmarshal_index (default "" (ledger stub !! trackIndexStr)))
      as [trackIndex [e|]]; cbn [snd get_all_tracks_loop].
    - split; [by right|done].
    - split; [done|]. intros [?|?]; done. }
  split; [exact Hiff|].
  intros Habs Hempty. apply Hiff.
  destruct (readFault stub trackIndexStr); [by left|right].
  unfold stored. by rewrite Habs.
Qed.

(** The loop of [get_all_tracks] ranges over the empty slice it has just
    declared, so a successful query returns the encoding of that slice
    whatever the index lists. *)
Lemma get_all_tracks_Ret (stub : ChaincodeStub) (args : list string) (out : bytes) :
  get_all_tracks stub args = Ret out -> out = marshal_tracks [].
Proof.
  unfold get_all_tracks.
  destruct (GetState stub trackIndexStr) as [indexAsBytes [e|]]; [done|].
  destruct (unmarshal_index indexAsBytes) as [trackIndex [e|]]; [done|].
  cbn [get_all_tracks_loop]. congruence.
Qed.

(** C9, as amended.  For an identifier that was never written, [get_account]
    and [get_track] return the empty byte string and no error whenever the
    ledger read itself succeeds. *)
Theorem get_never_written (stub : ChaincodeStub) (id arg0 : string) :
  ledger stub !! id = None ->
  readFault stub id = false ->
  get_account stub id = Ret "" /\ get_track stub [arg0; id] = Ret "".
Proof.
  intros Habs Hr. unfold get_account, get_track. cbn [lookup list_lookup].
  rewrite (GetState_ok _ _ Hr). unfold stored. by rewrite Habs.
Qed.

(** The two queries fail only when the ledger read fails. *)
Lemma get_account_outcome (stub : ChaincodeStub) (id : string) :
  is_Ret (get_account stub id) = negb (readFault stub id).
Proof. unfold get_account, GetState. by destruct (readFault stub id). Qed.

Lemma get_track_outcome (stub : ChaincodeStub) (id arg0 : string) :
  is_Ret (get_track stub [arg0; id]) = negb (readFault stub id).
Proof.
  unfold get_track, GetState. cbn [lookup list_lookup].
  by destruct (readFault stub id).
Qed.

Lemma stored_index_after_add (stub : ChaincodeStub) (indexStr id payload : string)
    (r w : string -> bool) :
  id <> indexStr ->
  (unmarshal_index (marshal_index (stored_index stub indexStr ++ [id]))).1
    = stored_index stub indexStr ++ [id] ->
  stored_index
    (mkStub
       (<[id := payload]>
          (<[indexStr := marshal_index (stored_index stub indexStr ++ [id])]> (ledger stub)))
       r w) indexStr
  = stored_index stub indexStr ++ [id].
Proof.
  intros Hne Hrt. unfold stored_index at 1. rewrite !stored_insert.
  rewrite decide_False by done. by rewrite decide_True.
Qed.



(** When the identifier is the index key, the payload replaces the index
    that [append_id] has just written. *)
Lemma add_track_index_key (stub : ChaincodeStub) (payload : string) :
  healthy stub ->
  ledger (add_track stub [trackIndexStr; payload]).1 !! trackIndexStr = Some payload.
Proof.
  intros Hh. unfold add_track. cbn [lookup list_lookup].
  rewrite (append_id_ok stub trackIndexStr trackIndexStr false) by apply Hh.
  cbn zeta. rewrite PutState_ok by apply Hh. apply lookup_insert_eq.
Qed.


End IndexAndQueries.

(** * Royalty distribution *)

Section Distribution.
Context `{J : Json}.

(** The amount is the product of percentage and price, in [int64]. *)
Lemma pendingPaymentFor_amount (t : Track) (s a : Account) (b : Beneficiary) :
  Amount (pendingPaymentFor t s a b) = mul64 (Percentage b) (Track_Price t).
Proof. reflexivity. Qed.




Lemma register_track_loop_faults (bs : list Beneficiary) :
  forall (stub : ChaincodeStub) (t : Track) (s : Account) (ps : list Payment),
    readFault (register_track_loop stub t s bs ps).1 = readFault stub /\
    writeFault (register_track_loop stub t s bs ps).1 = writeFault stub.
Proof.
  induction bs as [|b bs IH]; intros stub t s ps; [done|].
  cbn [register_track_loop].
  destruct (GetState stub (AccountId b)) as [bytes [e|]]; [done|].
  match goal with |- context [PutState stub ?k ?v] =>
    pose proof (PutState_faults stub k v) as [Hr Hw];
    destruct (PutState stub k v) as [stub1 e1] end.
  cbn [fst] in Hr, Hw. rewrite <- Hr, <- Hw. apply IH.
Qed.

(** The loop has no failure path for a beneficiary whose account is
    missing or unreadable as JSON: it stops early only when a ledger read
    fails. *)
Lemma register_track_loop_total (bs : list Beneficiary) :
  forall (stub : ChaincodeStub) (t : Track) (s : Account) (ps : list Payment),
    (forall b, b ∈ bs -> readFault stub (AccountId b) = false) ->
    exists stub' ps', register_track_loop stub t s bs ps = (stub', Ret ps').
Proof.
  induction bs as [|b bs IH]; intros stub t s ps Hr; [by eexists _, _|].
  cbn [register_track_loop].
  rewrite GetState_ok by (apply Hr; left). cbn zeta.
  match goal with |- context [PutState stub ?k ?v] =>
    pose proof (PutState_faults stub k v) as [Hr1 _];
    destruct (PutState stub k v) as [stub1 e1] end.
  cbn [fst] in Hr1. apply IH. intros b' Hb'. rewrite Hr1. apply Hr. by right.
Qed.

(** Every record the loop changes ends up as an account stored under its
    own identifier whose last pending payment names that account as the
    recipient: the loop only ever writes credited recipients. *)
Lemma register_track_loop_changed (bs : list Beneficiary) :
  forall (stub : ChaincodeStub) (t : Track) (s : Account) (ps : list Payment) (k : string),
    ledger (register_track_loop stub t s bs ps).1 !! k <> ledger stub !! k ->
    exists a p,
      ledger (register_track_loop stub t s bs ps).1 !! k = Some (marshal_account a) /\
      Account_Id a = k /\
      last (Account_PendingPayments a) = Some p /\
      Recipient p = k /\ Sender p = Account_Id s.
Proof.
  induction bs as [|b bs IH]; intros stub t s ps k Hk; [done|].
  revert Hk. cbn [register_track_loop].
  destruct (GetState stub (AccountId b)) as [bytes [e|]]; [done|].
  set (a := (unmarshal_account bytes).1).
  set (p := pendingPaymentFor t s a b).
  cbn [set_PendingPayments Account_Id].
  set (a' := set_PendingPayments a (Account_PendingPayments a ++ [p])).
  change (mkAccount (Account_Id a) (Account_Name a) (Account_Balance a)
            (Account_PendingPayments a ++ [p])) with a'.
  destruct (PutState stub (Account_Id a) (marshal_account a')) as [stub1 e1] eqn:Hput.
  intros Hk.
  destruct (decide (ledger (register_track_loop stub1 t s bs (ps ++ [p])).1 !! k
                    = ledger stub1 !! k)) as [Heq|Hne]; [|by apply IH].
  rewrite Heq in Hk |- *.
  unfold PutState in Hput. destruct (writeFault stub (Account_Id a)).
  - by simplify_eq.
  - simplify_eq. cbn [ledger] in *.
    destruct (decide (Account_Id a = k)) as [<-|Hak].
    + rewrite lookup_insert_eq. exists a', p. repeat split.
      unfold a'. cbn. apply last_snoc.
    + by rewrite lookup_insert_ne in Hk.
Qed.




End Distribution.

(** * The handlers on the sample ledger *)

#[local] Existing Instance CompactJson.codec.

Lemma healthy_stubOf (m : gmap string string) : healthy (stubOf m).
Proof. intros key. split; reflexivity. Qed.

Example Itoa_decimal : Itoa 12 = "12" /\ Itoa 1 = "1" /\ Itoa 100 = "100".
Proof. repeat split. Qed.

Example sample_ledger_decodes :
  unmarshal_track (Json := codec) (stored demoStub "t1") = (song, None) /\
  unmarshal_account (Json := codec) (stored demoStub "S") = (listener, None) /\
  unmarshal_account (Json := codec) (stored demoStub "A") = (alice, None) /\
  unmarshal_account (Json := codec) (stored demoStub "B") = (bob, None).
Proof. vm_compute. repeat split. Qed.

(** C1.  The track [song] has the beneficiaries [(A,30); (B,70)] and the
    price 100.  [register_track] records the amounts 30 * 100 and 70 * 100:
    the product of percentage and price is not divided by 100. *)
Theorem register_track_amounts_unscaled :
  let body := register_track_body (J := codec) demoStub ["t1"; "S"] in
  let run := register_track (J := codec) demoStub ["t1"; "S"] in
  Track_Beneficiaries song = [mkBeneficiary "A" 30; mkBeneficiary "B" 70] /\
  Track_Price song = 100%Z /\
  run.2 = Ret "" /\
  stored_account (J := codec) run.1 "A" = credit alice [mkPayment "A" "S" 3000 false] /\
  stored_account (J := codec) run.1 "B" = credit bob [mkPayment "B" "S" 7000 false] /\
  body.2 = Ret (credit listener [mkPayment "A" "S" 3000 false; mkPayment "B" "S" 7000 false]).
Proof. vm_compute. repeat split. Qed.

(** C2.  The second beneficiary of [orphanSong] has no account on the
    ledger.  [register_track] does not fail: it returns without an error and
    the first beneficiary's account has been rewritten with its payment,
    whether or not the ledger takes the write made for the missing account,
    whose decoded [Id] is empty. *)
Theorem register_track_unknown_beneficiary :
  let run := register_track (J := codec) demoStub ["t2"; "S"] in
  let run' := register_track (J := codec) strictStub ["t2"; "S"] in
  Track_Beneficiaries orphanSong = [mkBeneficiary "A" 30; mkBeneficiary "ghost" 70] /\
  ledger demoStub !! "ghost" = None /\
  run.2 = Ret "" /\
  stored_account (J := codec) run.1 "A" = credit alice [mkPayment "A" "S" 3000 false] /\
  run'.2 = Ret "" /\
  stored_account (J := codec) run'.1 "A" = credit alice [mkPayment "A" "S" 3000 false].
Proof. vm_compute. repeat split. Qed.

(** C3.  After a successful [register_track] the payments are in the local
    copy of the sender only; the sender's record on the ledger is the one
    from before the call. *)
Theorem register_track_sender_not_persisted :
  let body := register_track_body (J := codec) demoStub ["t1"; "S"] in
  let run := register_track (J := codec) demoStub ["t1"; "S"] in
  body.2 = Ret (credit listener [mkPayment "A" "S" 3000 false; mkPayment "B" "S" 7000 false]) /\
  run.2 = Ret "" /\
  ledger run.1 !! "S" = ledger demoStub !! "S" /\
  stored_account (J := codec) run.1 "S" = listener.
Proof. vm_compute. repeat split. Qed.

(** C4.  Registering an account through [Invoke] leaves the accounts index
    unwritten and appends the identifier to the tracks index. *)
Theorem Invoke_add_account_fills_tracks_index :
  let run := Invoke (J := codec) emptyStub "add_account" ["A"; CompactJson.print_account alice] in
  run.2 = Ret "" /\
  ledger run.1 !! accountIndexStr = None /\
  stored_index (J := codec) run.1 trackIndexStr = ["A"] /\
  stored_account (J := codec) run.1 "A" = alice.
Proof. vm_compute. repeat split. Qed.

Lemma append_id_generates_distinct_witness :
  (append_id (J := codec) emptyStub "_tracks" "tr" true).2 = Ret "tr1" /\
  exists stub' ids,
    append_id_n (J := codec) 3 emptyStub "_tracks" "tr" = (stub', Ret ids) /\
    length ids = 3 /\
    NoDup ids /\
    length (stored_index (J := codec) stub' "_tracks") = 0 + 3.
Proof.
  apply (append_id_generates_distinct (J := codec) emptyStub "_tracks" "tr" 3).
  - reflexivity.
  - reflexivity.
  - apply CompactJsonFacts.codec_index_length.
Defined.

(** C6.  The track index holds bytes that are not JSON.  [append_id] drops
    the decoder's error, returns the identifier and replaces the index by
    the one-element list. *)
Theorem append_id_overwrites_broken_index :
  let run := append_id (J := codec) brokenIndexStub trackIndexStr "t9" false in
  ledger brokenIndexStub !! trackIndexStr = Some "not json" /\
  (unmarshal_index (Json := codec) "not json").2 = Some "invalid JSON input" /\
  run.2 = Ret "t9" /\
  stored_index (J := codec) run.1 trackIndexStr = ["t9"].
Proof. vm_compute. repeat split. Qed.

(** The half of C6 that holds: an absent index key is read as the empty
    list. *)
Lemma append_id_absent_index :
  ledger emptyStub !! trackIndexStr = None /\
  (append_id (J := codec) emptyStub trackIndexStr "t1" false).2 = Ret "t1" /\
  stored_index (J := codec) (append_id (J := codec) emptyStub trackIndexStr "t1" false).1
    trackIndexStr = ["t1"].
Proof. vm_compute. repeat split. Qed.

(** C7 fails on the code: with no index on the ledger the query is an
    error, and with three tracks added it returns the encoding of the nil
    slice. *)
Lemma get_all_tracks_counterexample :
  ledger emptyStub !! trackIndexStr = None /\
  get_all_tracks (J := codec) emptyStub [] = Fail "Failed to get _tracks" /\
  stored_index (J := codec) threeTracksStub trackIndexStr = ["t1"; "t2"; "t3"] /\
  get_all_tracks (J := codec) threeTracksStub [] = Ret "null".
Proof. vm_compute. repeat split. Qed.

Lemma get_all_tracks_index_guard_witness :
  get_all_tracks (J := codec) emptyStub [] = Fail ("Failed to get " +:+ trackIndexStr).
Proof.
  apply (proj2 (get_all_tracks_index_guard (J := codec) emptyStub [])).
  - reflexivity.
  - vm_compute. discriminate.
Defined.



(** C9 fails on the code: nothing was ever written, and both queries
    return empty bytes instead of an error. *)
Lemma get_never_written_counterexample :
  ledger emptyStub !! "nobody" = None /\
  get_account emptyStub "nobody" = Ret "" /\
  get_track emptyStub ["get_track"; "nobody"] = Ret "".
Proof. repeat split. Qed.

Lemma get_never_written_witness :
  get_account demoStub "nobody" = Ret "" /\
  get_track demoStub ["get_track"; "nobody"] = Ret "".
Proof.
  apply (get_never_written demoStub "nobody" "get_track").
  - vm_compute. reflexivity.
  - reflexivity.
Defined.



(** * Further properties: the index and the registration handlers *)

Section RegistrationFacts.
Context `{J : Json}.

Lemma append_id_frame (stub : ChaincodeStub) (indexStr id k : string) (create : bool) :
  k <> indexStr ->
  ledger (append_id stub indexStr id create).1 !! k = ledger stub !! k.
Proof.
  intros Hk. unfold append_id, GetState, PutState.
  destruct (readFault stub indexStr); [done|].
  destruct (writeFault stub indexStr); [done|].
  cbn [fst ledger]. by rewrite lookup_insert_ne.
Qed.

Lemma append_id_keeps_faults (stub : ChaincodeStub) (indexStr id : string) (create : bool) :
  readFault (append_id stub indexStr id create).1 = readFault stub /\
  writeFault (append_id stub indexStr id create).1 = writeFault stub.
Proof.
  unfold append_id, GetState, PutState.
  destruct (readFault stub indexStr); [done|].
  by destruct (writeFault stub indexStr).
Qed.

Lemma add_track_ok (stub : ChaincodeStub) (id payload : string) (rest : list string) :
  readFault stub trackIndexStr = false ->
  writeFault stub trackIndexStr = false ->
  writeFault stub id = false ->
  add_track stub (id :: payload :: rest)
  = (mkStub
       (<[id := payload]>
          (<[trackIndexStr := marshal_index (stored_index stub trackIndexStr ++ [id])]>
             (ledger stub)))
       (readFault stub) (writeFault stub),
     Ret "").
Proof.
  intros Hr Hw Hid. unfold add_track. cbn [lookup list_lookup].
  rewrite (append_id_ok stub trackIndexStr id false) by done.
  cbn zeta. by rewrite PutState_ok.
Qed.

Lemma add_account_run_ok (stub : ChaincodeStub) (id payload : string) (rest : list string) :
  readFault stub accountIndexStr = false ->
  writeFault stub accountIndexStr = false ->
  writeFault stub id = false ->
  add_account stub (id :: payload :: rest)
  = (mkStub
       (<[id := payload]>
          (<[accountIndexStr := marshal_index (stored_index stub accountIndexStr ++ [id])]>
             (ledger stub)))
       (readFault stub) (writeFault stub),
     Ret "").
Proof.
  intros Hr Hw Hid. unfold add_account. cbn [lookup list_lookup].
  rewrite (append_id_ok stub accountIndexStr id false) by done.
  cbn zeta. by rewrite PutState_ok.
Qed.

(** X1.  A successful [append_id] makes one change to the ledger: the index
    key gets the encoding of the decoded list with the returned identifier
    appended at its end; every other key keeps what it held. *)
Theorem append_id_effect (stub : ChaincodeStub) (indexStr id : string) (create : bool) :
  readFault stub indexStr = false ->
  writeFault stub indexStr = false ->
  exists newId,
    (append_id stub indexStr id create).2 = Ret newId /\
    ledger (append_id stub indexStr id create).1 !! indexStr
    = Some (marshal_index (stored_index stub indexStr ++ [newId])) /\
    forall k, k <> indexStr ->
      ledger (append_id stub indexStr id create).1 !! k = ledger stub !! k.
Proof.
  intros Hr Hw. eexists. split; [|split].
  - by rewrite (append_id_ok stub indexStr id create Hr Hw).
  - rewrite (append_id_ok stub indexStr id create Hr Hw). apply lookup_insert_eq.
  - intros k Hk. by apply append_id_frame.
Qed.

(** X2.  [append_id] fails only when the read or the write of the index key
    fails, with the message of the step that failed, and a failed call hands
    back the stub it was given. *)
Theorem append_id_failure_keeps_ledger
    (stub : ChaincodeStub) (indexStr id : string) (create : bool) :
  is_Ret (append_id stub indexStr id create).2 = false ->
  (readFault stub indexStr = true \/ writeFault stub indexStr = true) /\
  append_id stub indexStr id create
  = (stub,
     Fail (if readFault stub indexStr then "Failed to get " +:+ indexStr
           else "Error storing new " +:+ indexStr +:+ " into ledger")).
Proof.
  unfold append_id, GetState, PutState.
  destruct (readFault stub indexStr); [by auto|].
  destruct (writeFault stub indexStr); [by auto|done].
Qed.

(** X3.  On a ledger without the index key, when the decoder leaves the empty
    list for empty input, [append_id] with [create = true] returns the
    candidate followed by [1] and stores the one-element index. *)
Theorem append_id_first_id (stub : ChaincodeStub) (indexStr id : string) :
  ledger stub !! indexStr = None ->
  readFault stub indexStr = false ->
  writeFault stub indexStr = false ->
  (unmarshal_index "").1 = [] ->
  (append_id stub indexStr id true).2 = Ret (id +:+ "1") /\
  ledger (append_id stub indexStr id true).1 !! indexStr
  = Some (marshal_index [id +:+ "1"]).
Proof.
  intros Habs Hr Hw Hnil.
  rewrite (append_id_ok stub indexStr id true Hr Hw). cbn zeta.
  assert (Hidx : stored_index stub indexStr = []).
  { unfold stored_index, stored. by rewrite Habs. }
  rewrite Hidx. split; [done|]. apply lookup_insert_eq.
Qed.

(** X4.  When [add_track] or [add_account] has succeeded, [get_track] and
    [get_account] on the identifier return the payload as it was passed,
    provided the read succeeds. *)
Theorem added_record_is_returned (stub : ChaincodeStub) (id payload arg0 : string) :
  readFault stub id = false ->
  ((add_track stub [id; payload]).2 = Ret "" ->
   get_track (add_track stub [id; payload]).1 [arg0; id] = Ret payload /\
   get_account (add_track stub [id; payload]).1 id = Ret payload) /\
  ((add_account stub [id; payload]).2 = Ret "" ->
   get_track (add_account stub [id; payload]).1 [arg0; id] = Ret payload /\
   get_account (add_account stub [id; payload]).1 id = Ret payload).
Proof.
  intros Hrid. split.
  - unfold add_track. cbn [lookup list_lookup].
    pose proof (append_id_keeps_faults stub trackIndexStr id false) as [Hrf Hwf].
    destruct (append_id stub trackIndexStr id false) as [stub1 [newId| |]] eqn:Happ;
      [|done..].
    assert (newId = id) as ->.
    { revert Happ. unfold append_id, GetState, PutState.
      destruct (readFault stub trackIndexStr); [done|].
      destruct (writeFault stub trackIndexStr); [done|]. congruence. }
    cbn [fst] in Hrf, Hwf. unfold PutState.
    destruct (writeFault stub1 id); [done|]. intros _.
    unfold get_track, get_account, GetState. cbn [lookup list_lookup fst readFault ledger].
    rewrite Hrf, Hrid. by rewrite lookup_insert_eq.
  - unfold add_account. cbn [lookup list_lookup].
    pose proof (append_id_keeps_faults stub accountIndexStr id false) as [Hrf Hwf].
    destruct (append_id stub accountIndexStr id false) as [stub1 [newId| |]] eqn:Happ;
      [|done..].
    assert (newId = id) as ->.
    { revert Happ. unfold append_id, GetState, PutState.
      destruct (readFault stub accountIndexStr); [done|].
      destruct (writeFault stub accountIndexStr); [done|]. congruence. }
    cbn [fst] in Hrf, Hwf. unfold PutState.
    destruct (writeFault stub1 id); [done|]. intros _.
    unfold get_track, get_account, GetState. cbn [lookup list_lookup fst readFault ledger].
    rewrite Hrf, Hrid. by rewrite lookup_insert_eq.
Qed.

(** X5.  Through the dispatchers: after [Invoke] of [add_track] or of
    [add_account] on a healthy stub, [Query] of [get_track] and of
    [get_account] on the identifier both return the payload. *)
Theorem Invoke_then_Query (stub : ChaincodeStub) (function id payload f : string) :
  healthy stub ->
  function = "add_track" \/ function = "add_account" ->
  let stub' := (Invoke stub function [id; payload]).1 in
  (Invoke stub function [id; payload]).2 = Ret "" /\
  Query stub' f ["get_track"; id] = Ret payload /\
  Query stub' f ["get_account"; id] = Ret payload.
Proof.
  intros Hh Hf.
  assert (HI : Invoke stub function [id; payload] = add_track stub [id; payload])
    by (destruct Hf as [-> | ->]; reflexivity).
  rewrite HI. rewrite add_track_ok by apply Hh. cbn [fst snd].
  split; [done|].
  unfold Query. cbn [lookup list_lookup].
  rewrite decide_False by done. rewrite decide_True by done.
  rewrite decide_True by done.
  unfold get_track, get_account, GetState. cbn [lookup list_lookup readFault ledger].
  destruct (Hh id) as [-> _]. by rewrite lookup_insert_eq.
Qed.

(** X6.  Whatever the arguments and the outcome, [add_track] leaves every key
    other than [_tracks] and its first argument as it was, and so does
    [add_account] for [_accounts]. *)
Theorem add_handlers_frame (stub : ChaincodeStub) (args : list string) (k : string) :
  args !! 0 <> Some k ->
  (k <> trackIndexStr -> ledger (add_track stub args).1 !! k = ledger stub !! k) /\
  (k <> accountIndexStr -> ledger (add_account stub args).1 !! k = ledger stub !! k).
Proof.
  intros Hk. split; intros Hidx.
  - unfold add_track. destruct (args !! 0) as [arg0|] eqn:H0; [|done].
    pose proof (append_id_frame stub trackIndexStr arg0 k false Hidx) as Hfr.
    assert (Hnew : forall s newId,
              append_id stub trackIndexStr arg0 false = (s, Ret newId) -> newId = arg0).
    { intros s newId. unfold append_id, GetState, PutState.
      destruct (readFault stub trackIndexStr); [done|].
      destruct (writeFault stub trackIndexStr); [done|]. congruence. }
    destruct (append_id stub trackIndexStr arg0 false) as [stub1 [newId| |]] eqn:Happ;
      [|done..].
    rewrite (Hnew _ _ eq_refl). cbn [fst] in Hfr.
    destruct (args !! 1) as [arg1|]; [|done].
    unfold PutState. destruct (writeFault stub1 arg0); [done|].
    cbn [fst ledger]. rewrite lookup_insert_ne by congruence. done.
  - unfold add_account. destruct (args !! 0) as [arg0|] eqn:H0; [|done].
    pose proof (append_id_frame stub accountIndexStr arg0 k false Hidx) as Hfr.
    assert (Hnew : forall s newId,
              append_id stub accountIndexStr arg0 false = (s, Ret newId) -> newId = arg0).
    { intros s newId. unfold append_id, GetState, PutState.
      destruct (readFault stub accountIndexStr); [done|].
      destruct (writeFault stub accountIndexStr); [done|]. congruence. }
    destruct (append_id stub accountIndexStr arg0 false) as [stub1 [newId| |]] eqn:Happ;
      [|done..].
    rewrite (Hnew _ _ eq_refl). cbn [fst] in Hfr.
    destruct (args !! 1) as [arg1|]; [|done].
    unfold PutState. destruct (writeFault stub1 arg0); [done|].
    cbn [fst ledger]. rewrite lookup_insert_ne by congruence. done.
Qed.

End RegistrationFacts.

Section RegistrationEdges.
Context `{J : Json}.

Lemma append_id_fault_fails
    (stub : ChaincodeStub) (indexStr id : string) (create : bool) :
  readFault stub indexStr = true \/ writeFault stub indexStr = true ->
  exists e, append_id stub indexStr id create = (stub, Fail e).
Proof.
  intros Hf. unfold append_id, GetState, PutState.
  destruct (readFault stub indexStr); [by eexists|].
  destruct (writeFault stub indexStr); [by eexists|]. by destruct Hf.
Qed.

(** X7.  With no argument [add_track] and [add_account] panic at once; with
    the identifier alone they panic on reading the payload, after
    [append_id] has stored the index with the identifier appended. *)
Theorem add_handlers_short_args (stub : ChaincodeStub) (id : string) :
  add_track stub [] = (stub, Panic) /\
  add_account stub [] = (stub, Panic) /\
  (readFault stub trackIndexStr = false ->
   writeFault stub trackIndexStr = false ->
   add_track stub [id]
   = (mkStub
        (<[trackIndexStr := marshal_index (stored_index stub trackIndexStr ++ [id])]>
           (ledger stub))
        (readFault stub) (writeFault stub),
      Panic)) /\
  (readFault stub accountIndexStr = false ->
   writeFault stub accountIndexStr = false ->
   add_account stub [id]
   = (mkStub
        (<[accountIndexStr := marshal_index (stored_index stub accountIndexStr ++ [id])]>
           (ledger stub))
        (readFault stub) (writeFault stub),
      Panic)).
Proof.
  split; [done|]. split; [done|]. split; intros Hr Hw.
  - unfold add_track. cbn [lookup list_lookup].
    by rewrite (append_id_ok stub trackIndexStr id false Hr Hw).
  - unfold add_account. cbn [lookup list_lookup].
    by rewrite (append_id_ok stub accountIndexStr id false Hr Hw).
Qed.

(** X8.  When the index cannot be read or written, [add_track] and
    [add_account] fail with their own message naming the identifier and
    leave the ledger as it was. *)
Theorem add_handlers_index_failure (stub : ChaincodeStub) (id : string) (rest : list string) :
  (readFault stub trackIndexStr = true \/ writeFault stub trackIndexStr = true ->
   add_track stub (id :: rest) = (stub, Fail ("Error creating new id for thing " +:+ id))) /\
  (readFault stub accountIndexStr = true \/ writeFault stub accountIndexStr = true ->
   add_account stub (id :: rest) = (stub, Fail ("Error creating new id for user " +:+ id))).
Proof.
  split; intros Hf.
  - unfold add_track. cbn [lookup list_lookup].
    destruct (append_id_fault_fails stub trackIndexStr id false Hf) as [e ->].
    done.
  - unfold add_account. cbn [lookup list_lookup].
    destruct (append_id_fault_fails stub accountIndexStr id false Hf) as [e ->].
    done.
Qed.

End RegistrationEdges.

Section RegistrationSequences.
Context `{J : Json}.

(** X9.  When the index has been stored but the write of the record fails,
    [add_track] and [add_account] fail with the index already listing the
    identifier and no record written under it. *)
Theorem add_handlers_record_failure
    (stub : ChaincodeStub) (id payload : string) (rest : list string) :
  writeFault stub id = true ->
  (readFault stub trackIndexStr = false ->
   writeFault stub trackIndexStr = false ->
   let r := add_track stub (id :: payload :: rest) in
   r.2 = Fail "Error putting thing data on ledger" /\
   ledger r.1 !! trackIndexStr
   = Some (marshal_index (stored_index stub trackIndexStr ++ [id])) /\
   ledger r.1 !! id = ledger stub !! id) /\
  (readFault stub accountIndexStr = false ->
   writeFault stub accountIndexStr = false ->
   let r := add_account stub (id :: payload :: rest) in
   r.2 = Fail "Error putting user data on ledger" /\
   ledger r.1 !! accountIndexStr
   = Some (marshal_index (stored_index stub accountIndexStr ++ [id])) /\
   ledger r.1 !! id = ledger stub !! id).
Proof.
  intros Hid. split; intros Hr Hw.
  - assert (Hne : id <> trackIndexStr) by congruence.
    unfold add_track. cbn [lookup list_lookup].
    rewrite (append_id_ok stub trackIndexStr id false Hr Hw). cbn zeta.
    unfold PutState. cbn [writeFault]. rewrite Hid. cbn [fst snd ledger].
    split; [done|]. split; [apply lookup_insert_eq|by rewrite lookup_insert_ne].
  - assert (Hne : id <> accountIndexStr) by congruence.
    unfold add_account. cbn [lookup list_lookup].
    rewrite (append_id_ok stub accountIndexStr id false Hr Hw). cbn zeta.
    unfold PutState. cbn [writeFault]. rewrite Hid. cbn [fst snd ledger].
    split; [done|]. split; [apply lookup_insert_eq|by rewrite lookup_insert_ne].
Qed.

Lemma add_tracks_healthy (entries : list (string * string)) :
  forall stub, healthy stub -> healthy (add_tracks stub entries).
Proof.
  induction entries as [|[id payload] entries IH]; intros stub Hh; [done|].
  cbn [add_tracks]. apply IH. rewrite add_track_ok by apply Hh. exact Hh.
Qed.

(** X10.  Tracks registered one after the other are listed by the index in
    the order of registration, after the identifiers it already held: on a
    healthy stub, for identifiers other than the index key and a codec that
    reads back the lists it writes. *)
Theorem add_tracks_index_order (entries : list (string * string)) :
  forall stub : ChaincodeStub,
    healthy stub ->
    Forall (fun e => e.1 <> trackIndexStr) entries ->
    (forall l, (unmarshal_index (marshal_index l)).1 = l) ->
    stored_index (add_tracks stub entries) trackIndexStr
    = stored_index stub trackIndexStr ++ entries.*1.
Proof.
  induction entries as [|[id payload] entries IH]; intros stub Hh Hne Hrt.
  - cbn. by rewrite app_nil_r.
  - apply Forall_cons in Hne as [Hid Hne]. cbn [fst] in Hid.
    cbn [add_tracks]. rewrite add_track_ok by apply Hh. cbn [fst].
    rewrite IH; [|exact Hh|done|done].
    rewrite stored_index_after_add by done.
    rewrite fmap_cons. cbn [fst]. by rewrite <- app_assoc.
Qed.

(** X11.  [Invoke] with a function name other than [init], [add_account],
    [add_track] and [register_track] fails with its own message and leaves
    the ledger as it was, and so does [Run]. *)
Theorem Invoke_unknown_function (stub : ChaincodeStub) (function : string)
    (args : list string) :
  function ∉ ["init"; "add_account"; "add_track"; "register_track"] ->
  Invoke stub function args = (stub, Fail "Received unknown invoke function name") /\
  Run stub function args = (stub, Fail "Received unknown invoke function name").
Proof.
  intros Hf. unfold Run, Invoke.
  repeat (rewrite decide_False; [|intros ->; apply Hf; set_solver]).
  done.
Qed.

(** X12.  [Query] dispatches on its first argument and not on the function
    name it is given: any two names give the same result.  With no argument
    it panics, with [get_account] or [get_track] and no identifier as well,
    and with any other first argument than the three query names it fails
    with its own message. *)
Theorem Query_dispatch (stub : ChaincodeStub) (f g arg0 : string) (args : list string) :
  Query stub f args = Query stub g args /\
  Query stub f [] = Panic /\
  Query stub f ["get_account"] = Panic /\
  Query stub f ["get_track"] = Panic /\
  (arg0 ∉ ["get_account"; "get_track"; "get_all_tracks"] ->
   Query stub f (arg0 :: args) = Fail "Received unknown query function name").
Proof.
  split; [done|]. split; [done|]. split; [done|]. split; [done|].
  intros Hf. unfold Query. cbn [lookup list_lookup].
  repeat (rewrite decide_False; [|intros ->; apply Hf; set_solver]).
  done.
Qed.

End RegistrationSequences.

(** * Further properties: royalty distribution *)

Section DistributionFacts.
Context `{J : Json}.

Lemma wrap64_range (z : Z) : (- 2 ^ 63 <= wrap64 z < 2 ^ 63)%Z.
Proof.
  unfold wrap64.
  pose proof (Z.mod_pos_bound (z + 2 ^ 63) (2 ^ 64) ltac:(lia)). lia.
Qed.

Lemma wrap64_small (z : Z) : (- 2 ^ 63 <= z < 2 ^ 63)%Z -> wrap64 z = z.
Proof.
  intros Hz. unfold wrap64. rewrite Z.mod_small by lia. lia.
Qed.

(** X13.  The amount of a payment is an [int64]: it is the product of
    percentage and price whenever that product fits, and the product wrapped
    into the [int64] range otherwise. *)
Theorem payment_amount_int64 (t : Track) (s a : Account) (b : Beneficiary) :
  (- 2 ^ 63 <= Amount (pendingPaymentFor t s a b) < 2 ^ 63)%Z /\
  ((Amount (pendingPaymentFor t s a b) - Percentage b * Track_Price t) mod 2 ^ 64 = 0)%Z /\
  ((- 2 ^ 63 <= Percentage b * Track_Price t < 2 ^ 63)%Z ->
   Amount (pendingPaymentFor t s a b) = (Percentage b * Track_Price t)%Z).
Proof.
  cbn [pendingPaymentFor Amount]. unfold mul64. split; [apply wrap64_range|].
  split; [|apply wrap64_small].
  unfold wrap64.
  set (z := (Percentage b * Track_Price t)%Z).
  rewrite (Z.mod_eq (z + 2 ^ 63) (2 ^ 64)) by lia.
  replace (z + 2 ^ 63 - 2 ^ 64 * ((z + 2 ^ 63) `div` 2 ^ 64) - 2 ^ 63 - z)%Z
    with (- ((z + 2 ^ 63) `div` 2 ^ 64) * 2 ^ 64)%Z by lia.
  apply Z.mod_mul. lia.
Qed.

(** X14.  [register_track] changes the ledger only after both the track and
    the sender have been read and decoded without error, and only for a
    track that has beneficiaries. *)
Theorem register_track_mutation_needs_loads (stub : ChaincodeStub) (args : list string) :
  ledger (register_track stub args).1 <> ledger stub ->
  exists trackId senderId t s,
    args !! 0 = Some trackId /\
    args !! 1 = Some senderId /\
    readFault stub trackId = false /\
    readFault stub senderId = false /\
    unmarshal_track (stored stub trackId) = (t, None) /\
    unmarshal_account (stored stub senderId) = (s, None) /\
    Track_Beneficiaries t <> [].
Proof.
  unfold register_track, register_track_body, GetState.
  destruct (args !! 0) as [trackId|]; [|done].
  destruct (readFault stub trackId) eqn:Hrt; [done|].
  fold (stored stub trackId).
  destruct (unmarshal_track (stored stub trackId)) as [t [e|]] eqn:Ht; [done|].
  destruct (args !! 1) as [senderId|]; [|done].
  destruct (readFault stub senderId) eqn:Hrs; [done|].
  fold (stored stub senderId).
  destruct (unmarshal_account (stored stub senderId)) as [s [e|]] eqn:Hs; [done|].
  destruct (Track_Beneficiaries t) as [|b bs] eqn:Hbs; [done|].
  intros _. exists trackId, senderId, t, s. by rewrite Hbs.
Qed.

(** X15.  Once the track and the sender are read and decoded, [register_track]
    returns without an error whenever the beneficiaries' keys can be read:
    it needs neither that their accounts exist or decode nor that the writes
    succeed. *)
Theorem register_track_succeeds (stub : ChaincodeStub) (trackId senderId : string)
    (rest : list string) (t : Track) (s : Account) :
  readFault stub trackId = false ->
  readFault stub senderId = false ->
  unmarshal_track (stored stub trackId) = (t, None) ->
  unmarshal_account (stored stub senderId) = (s, None) ->
  (forall b, b ∈ Track_Beneficiaries t -> readFault stub (AccountId b) = false) ->
  (register_track stub (trackId :: senderId :: rest)).2 = Ret "".
Proof.
  intros Hrt Hrs Ht Hs Hb.
  unfold register_track, register_track_body. cbn [lookup list_lookup].
  rewrite (GetState_ok _ _ Hrt), Ht, (GetState_ok _ _ Hrs), Hs.
  destruct (register_track_loop_total (Track_Beneficiaries t) stub t s [] Hb)
    as (stub' & ps & ->).
  done.
Qed.


(** X17.  Every record that [register_track] changes is, afterwards, an
    account stored under its own identifier whose last pending payment names
    that account as the recipient: the handler writes credited recipients
    and nothing else. *)
Theorem register_track_writes_recipients (stub : ChaincodeStub) (args : list string)
    (k : string) :
  ledger (register_track stub args).1 !! k <> ledger stub !! k ->
  exists a p,
    ledger (register_track stub args).1 !! k = Some (marshal_account a) /\
    Account_Id a = k /\
    last (Account_PendingPayments a) = Some p /\
    Recipient p = k.
Proof.
  unfold register_track, register_track_body.
  destruct (args !! 0) as [trackId|]; [|done].
  destruct (GetState stub trackId) as [trackBytes [e|]]; [done|].
  destruct (unmarshal_track trackBytes) as [t [e|]]; [done|].
  destruct (args !! 1) as [senderId|]; [|done].
  destruct (GetState stub senderId) as [playedByBytes [e|]]; [done|].
  destruct (unmarshal_account playedByBytes) as [s [e|]]; [done|].
  pose proof (register_track_loop_changed (Track_Beneficiaries t) stub t s [] k) as Hch.
  destruct (register_track_loop stub t s (Track_Beneficiaries t) []) as [stub' [ps|e|]];
    cbn [fst] in *; intros Hk; destruct (Hch Hk) as (a & p & ? & ? & ? & ? & _);
    by exists a, p.
Qed.

(** X18.  For a track without beneficiaries [register_track] returns without
    an error and leaves the ledger as it was. *)
Theorem register_track_no_beneficiaries (stub : ChaincodeStub)
    (trackId senderId : string) (rest : list string) (t : Track) (s : Account) :
  readFault stub trackId = false ->
  readFault stub senderId = false ->
  unmarshal_track (stored stub trackId) = (t, None) ->
  unmarshal_account (stored stub senderId) = (s, None) ->
  Track_Beneficiaries t = [] ->
  register_track stub (trackId :: senderId :: rest) = (stub, Ret "").
Proof.
  intros Hrt Hrs Ht Hs Hbs.
  unfold register_track, register_track_body. cbn [lookup list_lookup].
  rewrite (GetState_ok _ _ Hrt), Ht, (GetState_ok _ _ Hrs), Hs, Hbs.
  reflexivity.
Qed.

End DistributionFacts.

Section DistributionFailures.
Context `{J : Json}.

(** X19.  Every failure of [register_track] before the loop hands back the
    stub it was given: a panic for a missing argument, [Could not fetch
    track] with the key for a failed read of the track or of the sender, and
    [Could not unmarshal] with the bytes read when they do not decode.  The
    second argument is looked at only after the track has been decoded. *)
Theorem register_track_load_failures (stub : ChaincodeStub) (trackId senderId : string)
    (rest : list string) :
  register_track stub [] = (stub, Panic) /\
  (readFault stub trackId = true ->
   register_track stub (trackId :: rest)
   = (stub, Fail ("Could not fetch track " +:+ trackId))) /\
  (readFault stub trackId = false ->
   (unmarshal_track (stored stub trackId)).2 <> None ->
   register_track stub (trackId :: rest)
   = (stub, Fail ("Could not unmarshal track " +:+ stored stub trackId))) /\
  (readFault stub trackId = false ->
   (unmarshal_track (stored stub trackId)).2 = None ->
   register_track stub [trackId] = (stub, Panic) /\
   (readFault stub senderId = true ->
    register_track stub (trackId :: senderId :: rest)
    = (stub, Fail ("Could not fetch track " +:+ senderId))) /\
   (readFault stub senderId = false ->
    (unmarshal_account (stored stub senderId)).2 <> None ->
    register_track stub (trackId :: senderId :: rest)
    = (stub, Fail ("Could not unmarshal account " +:+ stored stub senderId)))).
Proof.
  unfold register_track, register_track_body, GetState. cbn [lookup list_lookup].
  fold (stored stub trackId). fold (stored stub senderId).
  split; [done|]. split; [by intros ->|].
  split.
  - intros -> He. by destruct (unmarshal_track (stored stub trackId)) as [t [e|]].
  - intros -> He. destruct (unmarshal_track (stored stub trackId)) as [t [e|]]; [done|].
    split; [done|]. split; [by intros ->|].
    intros -> Hs.
    by destruct (unmarshal_account (stored stub senderId)) as [s [e|]].
Qed.

Lemma register_track_loop_app (pre post : list Beneficiary) :
  forall (stub : ChaincodeStub) (t : Track) (s : Account) (ps : list Payment),
    register_track_loop stub t s (pre ++ post) ps
    = match register_track_loop stub t s pre ps with
      | (stub1, Ret ps1) => register_track_loop stub1 t s post ps1
      | (stub1, Fail e) => (stub1, Fail e)
      | (stub1, Panic) => (stub1, Panic)
      end.
Proof.
  induction pre as [|b pre IH]; intros stub t s ps.
  - cbn. by destruct (register_track_loop stub t s post ps) as [? [?|?|]].
  - cbn [app register_track_loop].
    destruct (GetState stub (AccountId b)) as [bytes [e|]]; [done|].
    destruct (PutState stub _ _) as [stub1 e1]. apply IH.
Qed.

(** X20.  When the read of a beneficiary's key fails, [register_track] fails
    there: the stub it hands back is the one left by the loop over the
    beneficiaries listed before, so their accounts have been rewritten, and
    no later beneficiary is processed. *)
Theorem register_track_stops_at_unreadable (stub : ChaincodeStub)
    (trackId senderId : string) (t : Track) (s : Account)
    (pre post : list Beneficiary) (b : Beneficiary) :
  readFault stub trackId = false ->
  readFault stub senderId = false ->
  unmarshal_track (stored stub trackId) = (t, None) ->
  unmarshal_account (stored stub senderId) = (s, None) ->
  Track_Beneficiaries t = pre ++ b :: post ->
  (forall b', b' ∈ pre -> readFault stub (AccountId b') = false) ->
  readFault stub (AccountId b) = true ->
  exists e,
    register_track stub [trackId; senderId]
    = ((register_track_loop stub t s pre []).1, Fail e).
Proof.
  intros Hrt Hrs Ht Hs Hbs Hpre Hb.
  unfold register_track, register_track_body. cbn [lookup list_lookup].
  rewrite (GetState_ok _ _ Hrt), Ht, (GetState_ok _ _ Hrs), Hs, Hbs.
  rewrite register_track_loop_app.
  pose proof (register_track_loop_faults pre stub t s []) as [Hrf _].
  destruct (register_track_loop_total pre stub t s [] Hpre) as (stub1 & ps1 & Hrun).
  rewrite Hrun in Hrf |- *. cbn [fst] in *.
  cbn [register_track_loop]. unfold GetState. rewrite Hrf, Hb.
  by eexists.
Qed.

(** X21.  [get_all_tracks] depends on the ledger through the [_tracks] key
    only: two stubs that agree on the bytes and on the read failure of that
    key give the same result, whatever the arguments and the other records;
    a successful result is the encoding of the empty track list. *)
Theorem get_all_tracks_reads_index_only (stub stub' : ChaincodeStub)
    (args args' : list string) :
  readFault stub trackIndexStr = readFault stub' trackIndexStr ->
  stored stub trackIndexStr = stored stub' trackIndexStr ->
  get_all_tracks stub args = get_all_tracks stub' args' /\
  (is_Ret (get_all_tracks stub args) = true ->
   get_all_tracks stub args = Ret (marshal_tracks [])).
Proof.
  intros Hr Hs. unfold get_all_tracks, GetState. rewrite <- Hr.
  fold (stored stub trackIndexStr). fold (stored stub' trackIndexStr).
  rewrite <- Hs.
  destruct (readFault stub trackIndexStr); [done|].
  by destruct (unmarshal_index (stored stub trackIndexStr)) as [idx [e|]].
Qed.

End DistributionFailures.

(** * Further properties: certificate authentication *)

Section CertificateFacts.
Context `{L : CertLib}.

Lemma check_role_loop_skip (pre rest : list Extension) (role : Z) :
  Forall (fun e => Ext_Id e <> ECertSubjectRole) pre ->
  check_role_loop (pre ++ rest) role = check_role_loop rest role.
Proof.
  induction 1 as [|e pre He _ IH]; [done|].
  cbn [app check_role_loop]. by rewrite decide_False.
Qed.

(** X22.  For a certificate that decodes and has no extension with the role
    identifier, [check_role] returns the role 0 and no error. *)
Theorem check_role_without_extension (stub : ChaincodeStub)
    (encodedCert decodedCert : string) (pemBytes : bytes) (x509Cert : Certificate) :
  QueryUnescape encodedCert = Some decodedCert ->
  pem_Decode decodedCert = Some pemBytes ->
  ParseCertificate pemBytes = Some x509Cert ->
  Forall (fun e => Ext_Id e <> ECertSubjectRole) (Extensions x509Cert) ->
  check_role stub encodedCert = Returns 0%Z None.
Proof.
  intros Hq Hp Hc Hext. unfold check_role. rewrite Hq, Hp, Hc.
  rewrite <- (app_nil_r (Extensions x509Cert)).
  by rewrite check_role_loop_skip.
Qed.

(** X23.  The first extension with the role identifier decides the result of
    [check_role]: the integer [strconv.ParseInt] reads from its value in base
    10 with eight bits per byte of the value, or -1 and [Failed parsing
    role] followed by the parser's message; the extensions after it are not
    looked at. *)
Theorem check_role_first_extension (stub : ChaincodeStub)
    (encodedCert decodedCert : string) (pemBytes : bytes) (x509Cert : Certificate)
    (pre post : list Extension) (ext : Extension) :
  QueryUnescape encodedCert = Some decodedCert ->
  pem_Decode decodedCert = Some pemBytes ->
  ParseCertificate pemBytes = Some x509Cert ->
  Extensions x509Cert = pre ++ ext :: post ->
  Forall (fun e => Ext_Id e <> ECertSubjectRole) pre ->
  Ext_Id ext = ECertSubjectRole ->
  check_role stub encodedCert
  = match ParseInt (Ext_Value ext) 10 (Z.of_nat (String.length (Ext_Value ext)) * 8) with
    | (role, None) => Returns role None
    | (_, Some e) => Returns (-1)%Z (Some ("Failed parsing role: " +:+ e))
    end.
Proof.
  intros Hq Hp Hc Hext Hpre Hid. unfold check_role. rewrite Hq, Hp, Hc, Hext.
  rewrite check_role_loop_skip by done. cbn [check_role_loop].
  rewrite decide_True by done.
  by destruct (ParseInt _ _ _) as [role [e|]].
Qed.

Lemma check_role_loop_sound (extensions : list Extension) (role0 : Z) :
  (forall r e, check_role_loop extensions role0 = Returns r (Some e) -> r = (-1)%Z) /\
  (forall role, check_role_loop extensions role0 = Returns role None ->
     role = role0 \/
     exists ext,
       ext ∈ extensions /\ Ext_Id ext = ECertSubjectRole /\
       ParseInt (Ext_Value ext) 10 (Z.of_nat (String.length (Ext_Value ext)) * 8)
       = (role, None)).
Proof.
  induction extensions as [|ext extensions [IHe IHr]]; cbn [check_role_loop].
  - split; [done|]. intros role [= ->]. by left.
  - destruct (decide (Ext_Id ext = ECertSubjectRole)) as [Hid|Hid].
    + destruct (ParseInt _ _ _) as [role' [e'|]] eqn:Hp.
      * split; [by intros r e [= <- _]|done].
      * split; [done|]. intros role [= <-]. right. exists ext.
        split; [by left|done].
    + split; [exact IHe|]. intros role Hrole.
      destruct (IHr role Hrole) as [?|(ext' & ? & ? & ?)]; [by left|].
      right. exists ext'. split; [by right|done].
Qed.

(** X24.  An error of [check_role] always comes with the role -1, and a role
    other than 0 returned without an error is the integer [strconv.ParseInt]
    read from an extension of the parsed certificate that carries the role
    identifier. *)
Theorem check_role_sound (stub : ChaincodeStub) (encodedCert : string) :
  (forall r e, check_role stub encodedCert = Returns r (Some e) -> r = (-1)%Z) /\
  (forall role, check_role stub encodedCert = Returns role None -> role <> 0%Z ->
     exists decodedCert pemBytes x509Cert ext,
       QueryUnescape encodedCert = Some decodedCert /\
       pem_Decode decodedCert = Some pemBytes /\
       ParseCertificate pemBytes = Some x509Cert /\
       ext ∈ Extensions x509Cert /\
       Ext_Id ext = ECertSubjectRole /\
       ParseInt (Ext_Value ext) 10 (Z.of_nat (String.length (Ext_Value ext)) * 8)
       = (role, None)).
Proof.
  unfold check_role.
  destruct (QueryUnescape encodedCert) as [decodedCert|];
    [|split; [by intros r e [= <- _]|done]].
  destruct (pem_Decode decodedCert) as [pemBytes|] eqn:Hp; [|done].
  destruct (ParseCertificate pemBytes) as [x509Cert|] eqn:Hc;
    [|split; [by intros r e [= <- _]|done]].
  destruct (check_role_loop_sound (Extensions x509Cert) 0) as [He Hr].
  split; [exact He|]. intros role Hrole Hnz.
  destruct (Hr role Hrole) as [?|(ext & ? & ? & ?)]; [done|].
  by exists decodedCert, pemBytes, x509Cert, ext.
Qed.

(** X25.  When the certificate text can be unescaped but holds no PEM block,
    [get_cert_username] and [check_role] panic; a name returned without an
    error by [get_cert_username] is the subject's common name of the
    certificate parsed from the block. *)
Theorem certificate_pem_block (stub : ChaincodeStub) (encodedCert : string) :
  (forall decodedCert,
     QueryUnescape encodedCert = Some decodedCert ->
     pem_Decode decodedCert = None ->
     get_cert_username stub encodedCert = Panics /\
     check_role stub encodedCert = Panics) /\
  (forall name,
     get_cert_username stub encodedCert = Returns name None ->
     exists decodedCert pemBytes x509Cert,
       QueryUnescape encodedCert = Some decodedCert /\
       pem_Decode decodedCert = Some pemBytes /\
       ParseCertificate pemBytes = Some x509Cert /\
       name = Subject_CommonName x509Cert).
Proof.
  unfold get_cert_username, check_role. split.
  - intros decodedCert -> ->. done.
  - intros name.
    destruct (QueryUnescape encodedCert) as [decodedCert|]; [|done].
    destruct (pem_Decode decodedCert) as [pemBytes|] eqn:Hp; [|done].
    destruct (ParseCertificate pemBytes) as [x509Cert|] eqn:Hc; [|done].
    intros [= <-]. by exists decodedCert, pemBytes, x509Cert.
Qed.

End CertificateFacts.

(** * The further properties on the sample ledger *)

Ltac decide_closed := apply (bool_decide_unpack _); vm_compute; exact I.

Lemma append_id_effect_witness :
  exists newId,
    (append_id demoStub trackIndexStr "t9" false).2 = Ret newId /\
    ledger (append_id demoStub trackIndexStr "t9" false).1 !! trackIndexStr
    = Some (marshal_index (stored_index demoStub trackIndexStr ++ [newId])) /\
    forall k, k <> trackIndexStr ->
      ledger (append_id demoStub trackIndexStr "t9" false).1 !! k = ledger demoStub !! k.
Proof.
  apply (append_id_effect demoStub trackIndexStr "t9" false); reflexivity.
Defined.

Lemma append_id_failure_keeps_ledger_witness :
  append_id offlineStub trackIndexStr "t9" true
  = (offlineStub, Fail "Failed to get _tracks").
Proof.
  destruct (append_id_failure_keeps_ledger offlineStub trackIndexStr "t9" true)
    as [_ H]; [vm_compute; reflexivity|exact H].
Defined.

Lemma append_id_first_id_witness :
  (append_id demoStub accountIndexStr "acc" true).2 = Ret "acc1" /\
  ledger (append_id demoStub accountIndexStr "acc" true).1 !! accountIndexStr
  = Some (marshal_index ["acc1"]).
Proof.
  apply (append_id_first_id demoStub accountIndexStr "acc");
    vm_compute; reflexivity.
Defined.

Lemma added_record_is_returned_witness :
  get_track (add_track demoStub ["t9"; "payload"]).1 ["get_track"; "t9"] = Ret "payload" /\
  get_account (add_account demoStub ["u9"; "payload"]).1 "u9" = Ret "payload".
Proof.
  split.
  - destruct (added_record_is_returned demoStub "t9" "payload" "get_track")
      as [H _]; [reflexivity|].
    apply H. vm_compute. reflexivity.
  - destruct (added_record_is_returned demoStub "u9" "payload" "get_track")
      as [_ H]; [reflexivity|].
    apply H. vm_compute. reflexivity.
Defined.

Lemma Invoke_then_Query_witness :
  (Invoke demoStub "add_account" ["u9"; "payload"]).2 = Ret "" /\
  Query (Invoke demoStub "add_account" ["u9"; "payload"]).1 "query" ["get_track"; "u9"]
  = Ret "payload" /\
  Query (Invoke demoStub "add_account" ["u9"; "payload"]).1 "query" ["get_account"; "u9"]
  = Ret "payload".
Proof.
  apply (Invoke_then_Query demoStub "add_account" "u9" "payload" "query").
  - apply healthy_stubOf.
  - by right.
Defined.

Lemma add_handlers_frame_witness :
  ledger (add_track demoStub ["t9"; "payload"]).1 !! "A" = ledger demoStub !! "A" /\
  ledger (add_account demoStub ["t9"; "payload"]).1 !! "A" = ledger demoStub !! "A".
Proof.
  destruct (add_handlers_frame demoStub ["t9"; "payload"] "A") as [Ht Ha];
    [cbn; discriminate|].
  split; [apply Ht|apply Ha]; decide_closed.
Defined.

Lemma add_handlers_short_args_witness :
  (add_track demoStub ["t9"]).2 = Panic /\
  stored_index (add_track demoStub ["t9"]).1 trackIndexStr = ["t9"].
Proof.
  destruct (add_handlers_short_args demoStub "t9") as (_ & _ & H & _).
  rewrite H by reflexivity. vm_compute. split; reflexivity.
Defined.

Lemma add_handlers_index_failure_witness :
  add_track readOnlyStub ["t9"; "payload"]
  = (readOnlyStub, Fail "Error creating new id for thing t9") /\
  add_account offlineStub ["u9"; "payload"]
  = (offlineStub, Fail "Error creating new id for user u9").
Proof.
  split.
  - destruct (add_handlers_index_failure readOnlyStub "t9" ["payload"]) as [H _].
    apply H. by right.
  - destruct (add_handlers_index_failure offlineStub "u9" ["payload"]) as [_ H].
    apply H. by left.
Defined.

Lemma add_handlers_record_failure_witness :
  (add_track noRecordStub ["t9"; "payload"]).2 = Fail "Error putting thing data on ledger" /\
  ledger (add_track noRecordStub ["t9"; "payload"]).1 !! trackIndexStr
  = Some (marshal_index (stored_index noRecordStub trackIndexStr ++ ["t9"])) /\
  ledger (add_track noRecordStub ["t9"; "payload"]).1 !! "t9" = ledger noRecordStub !! "t9".
Proof.
  destruct (add_handlers_record_failure noRecordStub "t9" "payload" []) as [H _];
    [reflexivity|].
  apply H; reflexivity.
Defined.

Lemma add_tracks_index_order_witness :
  stored_index (add_tracks emptyStub [("t1", "one"); ("t2", "two"); ("t1", "three")])
    trackIndexStr
  = stored_index emptyStub trackIndexStr ++ ["t1"; "t2"; "t1"].
Proof.
  apply (add_tracks_index_order [("t1", "one"); ("t2", "two"); ("t1", "three")] emptyStub).
  - apply healthy_stubOf.
  - repeat constructor; discriminate.
  - intros l. by rewrite CompactJsonFacts.codec_index_roundtrip.
Defined.

Lemma Invoke_unknown_function_witness :
  Invoke demoStub "delete_track" ["t1"]
  = (demoStub, Fail "Received unknown invoke function name") /\
  Run demoStub "delete_track" ["t1"]
  = (demoStub, Fail "Received unknown invoke function name").
Proof.
  apply (Invoke_unknown_function demoStub "delete_track" ["t1"]). decide_closed.
Defined.

Lemma Query_dispatch_witness :
  Query demoStub "get_account" ["get_balance"; "A"]
  = Fail "Received unknown query function name".
Proof.
  destruct (Query_dispatch demoStub "get_account" "get_track" "get_balance" ["A"])
    as (_ & _ & _ & _ & H).
  apply H. decide_closed.
Defined.

Lemma payment_amount_int64_witness :
  Amount (pendingPaymentFor song listener alice (mkBeneficiary "A" 30)) = (30 * 100)%Z.
Proof.
  destruct (payment_amount_int64 song listener alice (mkBeneficiary "A" 30))
    as (_ & _ & H).
  apply H. cbn. lia.
Defined.

Lemma register_track_mutation_needs_loads_witness :
  exists trackId senderId t s,
    ["t1"; "S"] !! 0 = Some trackId /\
    ["t1"; "S"] !! 1 = Some senderId /\
    readFault demoStub trackId = false /\
    readFault demoStub senderId = false /\
    unmarshal_track (stored demoStub trackId) = (t, None) /\
    unmarshal_account (stored demoStub senderId) = (s, None) /\
    Track_Beneficiaries t <> [].
Proof.
  apply (register_track_mutation_needs_loads demoStub ["t1"; "S"]).
  intros H. apply (f_equal (fun m : gmap string string => m !! "A")) in H.
  vm_compute in H. discriminate.
Defined.

Lemma register_track_succeeds_witness :
  (register_track demoStub ["t2"; "S"]).2 = Ret "".
Proof.
  apply (register_track_succeeds demoStub "t2" "S" [] orphanSong listener);
    first [vm_compute; reflexivity | intros b _; reflexivity].
Defined.


Lemma register_track_writes_recipients_witness :
  exists a p,
    ledger (register_track demoStub ["t1"; "S"]).1 !! "A" = Some (marshal_account a) /\
    Account_Id a = "A" /\
    last (Account_PendingPayments a) = Some p /\
    Recipient p = "A".
Proof.
  apply (register_track_writes_recipients demoStub ["t1"; "S"] "A").
  vm_compute. discriminate.
Defined.

Lemma register_track_no_beneficiaries_witness :
  register_track freeStub ["t0"; "S"] = (freeStub, Ret "").
Proof.
  apply (register_track_no_beneficiaries freeStub "t0" "S" [] freeSong listener);
    vm_compute; reflexivity.
Defined.

Lemma register_track_load_failures_witness :
  register_track offlineStub ["t1"; "S"] = (offlineStub, Fail "Could not fetch track t1") /\
  register_track demoStub ["nothing"; "S"] = (demoStub, Fail "Could not unmarshal track ") /\
  register_track demoStub ["t1"] = (demoStub, Panic) /\
  register_track demoStub ["t1"; "nobody"] = (demoStub, Fail "Could not unmarshal account ").
Proof.
  split; [|split; [|split]].
  - destruct (register_track_load_failures offlineStub "t1" "S" ["S"]) as (_ & H & _).
    apply H. reflexivity.
  - destruct (register_track_load_failures demoStub "nothing" "S" ["S"]) as (_ & _ & H & _).
    apply H; [reflexivity|vm_compute; discriminate].
  - destruct (register_track_load_failures demoStub "t1" "S" []) as (_ & _ & _ & H).
    apply H; vm_compute; reflexivity.
  - destruct (register_track_load_failures demoStub "t1" "nobody" []) as (_ & _ & _ & H).
    destruct H as (_ & _ & H); [reflexivity|vm_compute; reflexivity|].
    apply H; [reflexivity|vm_compute; discriminate].
Defined.

Lemma register_track_stops_at_unreadable_witness :
  exists e,
    register_track bUnreadableStub ["t1"; "S"]
    = ((register_track_loop bUnreadableStub song listener [mkBeneficiary "A" 30] []).1,
       Fail e).
Proof.
  apply (register_track_stops_at_unreadable bUnreadableStub "t1" "S" song listener
           [mkBeneficiary "A" 30] [] (mkBeneficiary "B" 70));
    try (vm_compute; reflexivity).
  intros b' Hb'. apply list_elem_of_singleton in Hb' as ->. reflexivity.
Defined.

Lemma get_all_tracks_reads_index_only_witness :
  get_all_tracks threeTracksStub []
  = get_all_tracks (stubOf (<[trackIndexStr := stored threeTracksStub trackIndexStr]> ∅))
      ["anything"] /\
  (is_Ret (get_all_tracks threeTracksStub []) = true ->
   get_all_tracks threeTracksStub [] = Ret (marshal_tracks [])).
Proof.
  apply (get_all_tracks_reads_index_only threeTracksStub
           (stubOf (<[trackIndexStr := stored threeTracksStub trackIndexStr]> ∅))
           [] ["anything"]);
    vm_compute; reflexivity.
Defined.

Lemma check_role_without_extension_witness :
  check_role (L := demoCertLib) demoStub "PEM:plain" = Returns 0%Z None.
Proof.
  apply (check_role_without_extension (L := demoCertLib) demoStub
           "PEM:plain" "PEM:plain" "plain" plainCert); try reflexivity.
  repeat constructor; discriminate.
Defined.

Lemma check_role_first_extension_witness :
  check_role (L := demoCertLib) demoStub "PEM:role" = Returns 2%Z None.
Proof.
  apply (check_role_first_extension (L := demoCertLib) demoStub
           "PEM:role" "PEM:role" "role" roleCert
           [mkExtension [2; 5; 29; 15]%Z "usage"]
           [mkExtension ECertSubjectRole "7"]
           (mkExtension ECertSubjectRole "2")); try reflexivity.
  repeat constructor; discriminate.
Defined.

Lemma check_role_sound_witness :
  exists decodedCert pemBytes x509Cert ext,
    QueryUnescape (CertLib := demoCertLib) "PEM:role" = Some decodedCert /\
    pem_Decode (CertLib := demoCertLib) decodedCert = Some pemBytes /\
    ParseCertificate (CertLib := demoCertLib) pemBytes = Some x509Cert /\
    ext ∈ Extensions x509Cert /\
    Ext_Id ext = ECertSubjectRole /\
    ParseInt (CertLib := demoCertLib) (Ext_Value ext) 10
      (Z.of_nat (String.length (Ext_Value ext)) * 8)
    = (2%Z, None).
Proof.
  destruct (check_role_sound (L := demoCertLib) demoStub "PEM:role") as [_ H].
  apply H; [reflexivity|discriminate].
Defined.

Lemma certificate_pem_block_witness :
  get_cert_username (L := demoCertLib) demoStub "no block" = Panics /\
  check_role (L := demoCertLib) demoStub "no block" = Panics.
Proof.
  destruct (certificate_pem_block (L := demoCertLib) demoStub "no block") as [H _].
  apply (H "no block"); reflexivity.
Defined.
